(** * Nephos: the upload dispatcher and the single-instance guard

    A shallow embedding of [nephos/uploader/uploader.py] (the abstract
    [Uploader] with [begin_uploads] and [_remove], and the module level
    [POOL]) and of the start of [nephos/nephos.py] (the [SingleInstance]
    guard executed when the module is loaded).

    Python code that talks to SQLite, to the file system, to the logger and
    to a thread pool is written in a small exception-and-state monad [M]:
    a computation reads and writes the [World] (the task table, the file
    system), either returns a value or raises, and emits the list of
    [event]s it performed, in order. The events are a record kept beside the
    world: no modelled code can read or erase them. *)

From Stdlib Require Import String List ZArith Lia Bool Arith Permutation.
Import ListNotations.
Local Open Scope string_scope.
Local Open Scope list_scope.

(** ** Python values, exceptions and results *)

(** The values that flow through the dispatcher: SQLite column values
    ([None], integers, text) and opaque objects such as the authenticated
    client. *)
Inductive value : Type :=
| VNone
| VInt (z : Z)
| VStr (s : string)
| VObj (id : nat).

(** The exception classes that the modelled code can meet. [Other] stands
    for whatever a platform upload function raises on its own. *)
Inductive exn : Type :=
| DBException
| Sqlite3Error
| TypeError
| IndexError
| ValueError
| FileNotFoundError
| NotADirectoryError
| SingleInstanceException
| Other (code : nat).

Inductive res (A : Type) : Type :=
| Ok (a : A)
| Raise (e : exn).
Arguments Ok {A} a.
Arguments Raise {A} e.

(** ** The task table *)

(** A row of the [tasks] table as [fetchall] returns it: the tuple of its
    column values. *)
Definition row : Type := list value.

(** The three statements of [uploader.py], by the name of the constant that
    holds their text. *)
Inductive sql : Type :=
| CMD_GET_FOLDERS     (* SELECT * FROM tasks WHERE status = "processed" *)
| CMD_SET_UPLOADING   (* UPDATE tasks SET status = "uploading" WHERE store_path = ? *)
| CMD_RM_TASK.        (* DELETE FROM tasks WHERE store_path = ? *)

(** ** The file system *)

Inductive node : Type := File | Dir.

(** The file system as the list of the paths that exist, each a regular
    file or a directory. Paths are compared as the program writes them. *)
Definition filesystem : Type := list (string * node).

(** ** The world *)

(** What the dispatcher reads and writes: whether the backing store can be
    reached, the [tasks] table ([None] when the table does not exist, so
    that executing a statement fails) and the file system. *)
Record World : Type := mkWorld {
  db_reachable : bool;
  tasks : option (list row);
  fs : filesystem
}.

Definition set_tasks (t : list row) (w : World) : World :=
  mkWorld (db_reachable w) (Some t) (fs w).

Definition set_fs (f : filesystem) (w : World) : World :=
  mkWorld (db_reachable w) (tasks w) f.

(** ** Events *)

Inductive level : Type := DEBUG | INFO | WARNING | ERROR.

Inductive logmsg : Type :=
| Msg (s : string)
| MsgExn (e : exn).

(** [multiprocessing.pool.ThreadPool]: the object is identified by the order
    in which the process constructed its pools. *)
Record ThreadPool : Type := mkPool {
  pool_id : nat;
  processes : nat
}.

(** What the modelled code does, in the order it does it. [EvCall] is a
    function being called with positional and keyword arguments, [EvEnter]
    its body starting with the parameters bound; [EvReturn] and [EvRaise]
    are a pool worker seeing the application to one argument tuple end. *)
Inductive event : Type :=
| EvLog (lvl : level) (m : logmsg)
| EvExecute (cmd : sql) (args : list value)
| EvRmtree (path : string)
| EvPoolCreate (p : ThreadPool)
| EvStarmap (p : ThreadPool) (items : list (list value))
| EvCall (pos : list value) (kw : list (string * value))
| EvEnter (env : list (string * value))
| EvReturn (pos : list value)
| EvRaise (pos : list value) (e : exn).

Definition trace : Type := list event.

(** ** The monad *)

Definition M (A : Type) : Type := World -> res A * World * trace.

Definition ret {A} (a : A) : M A := fun w => (Ok a, w, []).

Definition raise {A} (e : exn) : M A := fun w => (Raise e, w, []).

Definition bind {A B} (m : M A) (f : A -> M B) : M B := fun w =>
  match m w with
  | (Ok a, w1, t1) =>
      match f a w1 with
      | (r, w2, t2) => (r, w2, t1 ++ t2)
      end
  | (Raise e, w1, t1) => (Raise e, w1, t1)
  end.

(** [try: m except E: h] for the exception classes accepted by [catches]. *)
Definition try_except {A} (m : M A) (catches : exn -> bool) (h : exn -> M A) : M A :=
  fun w =>
    match m w with
    | (Ok a, w1, t1) => (Ok a, w1, t1)
    | (Raise e, w1, t1) =>
        if catches e then
          match h e w1 with
          | (r, w2, t2) => (r, w2, t1 ++ t2)
          end
        else (Raise e, w1, t1)
    end.

Definition emit (e : event) : M unit := fun w => (Ok tt, w, [e]).

Declare Scope py_scope.
Delimit Scope py_scope with py.
Notation "x <- m ;; k" := (bind m (fun x => k))
  (at level 61, m at next level, right associativity) : py_scope.
Notation "m ;; k" := (bind m (fun _ => k))
  (at level 61, right associativity) : py_scope.
Local Open Scope py_scope.

Definition LOG_warning (m : logmsg) : M unit := emit (EvLog WARNING m).
Definition LOG_debug (m : logmsg) : M unit := emit (EvLog DEBUG m).

(** ** The interface of [manage_db]

    [uploader.py] imports [DBHandler], [DBException], [TSK_STORE_INDEX] and
    [TSK_SHR_INDEX] from [manage_db]. The two index constants, the place of
    the columns that the SQL text names, and what the connection's context
    manager does with an exception raised inside its [with] block are taken
    as parameters. *)
Class ManageDB : Type := {
  (** index of the store path in a fetched row *)
  TSK_STORE_INDEX : nat;
  (** index of the share list in a fetched row *)
  TSK_SHR_INDEX : nat;
  (** position of the column named [store_path] in the table *)
  store_path_col : nat;
  (** position of the column named [share_list] in the table *)
  share_list_col : nat;
  (** position of the column named [status] in the table *)
  status_col : nat;
  (** the exception that leaves a [with DBHandler.connect()] block whose
      body raised [e] *)
  connect_exit : exn -> exn
}.

(** The index constants address the columns they are named after. *)
Definition indices_match `{ManageDB} : Prop :=
  TSK_STORE_INDEX = store_path_col /\ TSK_SHR_INDEX = share_list_col.

Section Store.
Context `{DB : ManageDB}.

(** The value a row holds in a column; SQL sees NULL where a row is short. *)
Definition col (i : nat) (r : row) : value := nth i r VNone.

(** SQLite's [=] between two stored values: NULL equals nothing, numbers
    and text compare within their own class. *)
Definition sql_eq (a b : value) : bool :=
  match a, b with
  | VInt x, VInt y => Z.eqb x y
  | VStr x, VStr y => String.eqb x y
  | _, _ => false
  end.

Definition is_processed (r : row) : bool :=
  sql_eq (col status_col r) (VStr "processed").

Definition has_store_path (p : value) (r : row) : bool :=
  sql_eq (col store_path_col r) p.

(** Functional update of one position of a tuple. *)
Fixpoint set_nth (i : nat) (v : value) (r : row) : row :=
  match i, r with
  | _, [] => []
  | O, _ :: tl => v :: tl
  | S j, x :: tl => x :: set_nth j v tl
  end.

(** [db_cur.execute(cmd, args)]: the statement runs against the [tasks]
    table and leaves its result set in the cursor; it raises when the table
    is missing or the number of bound parameters is wrong. *)
Definition execute (cmd : sql) (args : list value) : M (list row) := fun w =>
  match tasks w with
  | None => (Raise Sqlite3Error, w, [EvExecute cmd args])
  | Some rows =>
      match cmd, args with
      | CMD_GET_FOLDERS, [] =>
          (Ok (filter is_processed rows), w, [EvExecute cmd args])
      | CMD_SET_UPLOADING, [p] =>
          (Ok [],
           set_tasks (map (fun r => if has_store_path p r
                                    then set_nth status_col (VStr "uploading") r
                                    else r) rows) w,
           [EvExecute cmd args])
      | CMD_RM_TASK, [p] =>
          (Ok [],
           set_tasks (filter (fun r => negb (has_store_path p r)) rows) w,
           [EvExecute cmd args])
      | _, _ => (Raise Sqlite3Error, w, [EvExecute cmd args])
      end
  end.

(** [db_cur.fetchall()] on the result set the last statement left. *)
Definition fetchall (cursor : list row) : M (list row) := ret cursor.

(** Modelled from the spec: [DBHandler.connect], the scoped connection to
    the backing store of [manage_db], which is not among the sources. It
    fails with [DBException] when the backing storage cannot be reached;
    otherwise the block runs, the connection is released on every exit
    path, and an exception of the block leaves as [connect_exit] of it. *)
Definition with_connect {A} (block : M A) : M A := fun w =>
  if db_reachable w then
    match block w with
    | (Ok a, w1, t1) => (Ok a, w1, t1)
    | (Raise e, w1, t1) => (Raise (connect_exit e), w1, t1)
    end
  else (Raise DBException, w, []).

(** ** [shutil.rmtree] *)

Definition fs_lookup (p : string) (f : filesystem) : option node :=
  match find (fun e => String.eqb (fst e) p) f with
  | Some e => Some (snd e)
  | None => None
  end.

(** [q] is the directory [p] or lies below it. *)
Definition within (p q : string) : bool :=
  String.eqb q p || String.prefix (p ++ "/") q.

(** [shutil.rmtree(path)]: the directory and everything below it go away;
    a missing path or a regular file raises. *)
Definition rmtree (p : string) : M unit := fun w =>
  match fs_lookup p (fs w) with
  | None => (Raise FileNotFoundError, w, [EvRmtree p])
  | Some File => (Raise NotADirectoryError, w, [EvRmtree p])
  | Some Dir =>
      (Ok tt, set_fs (filter (fun e => negb (within p (fst e))) (fs w)) w,
       [EvRmtree p])
  end.

(** ** Calling a Python function *)

(** A function: its parameters in order, each with its default if it has
    one, and its body, which receives the bound parameters. *)
Record pyfunc : Type := mkFun {
  params : list (string * option value);
  body : list (string * value) -> World -> res unit * World
}.

Fixpoint assoc {A} (k : string) (l : list (string * A)) : option A :=
  match l with
  | [] => None
  | (k', v) :: tl => if String.eqb k k' then Some v else assoc k tl
  end.

Definition has_key {A} (k : string) (l : list (string * A)) : bool :=
  match assoc k l with Some _ => true | None => false end.

(** The parameters that no positional argument filled take their keyword
    argument, else their default; one with neither is a [TypeError]. *)
Fixpoint bind_keywords (ps : list (string * option value))
    (kw : list (string * value)) : res (list (string * value)) :=
  match ps with
  | [] => Ok []
  | (x, d) :: tl =>
      match (match assoc x kw with Some v => Some v | None => d end) with
      | None => Raise TypeError
      | Some v =>
          match bind_keywords tl kw with
          | Ok env => Ok ((x, v) :: env)
          | Raise e => Raise e
          end
      end
  end.

(** Positional arguments fill the parameters from the left. A parameter
    filled by position and named again by a keyword is a [TypeError]
    ("got multiple values for argument"), as are too many positionals. *)
Fixpoint bind_positional (ps : list (string * option value))
    (pos : list value) (kw : list (string * value))
    : res (list (string * value)) :=
  match pos with
  | [] => bind_keywords ps kw
  | v :: vs =>
      match ps with
      | [] => Raise TypeError
      | (x, _) :: tl =>
          if has_key x kw then Raise TypeError
          else
            match bind_positional tl vs kw with
            | Ok env => Ok ((x, v) :: env)
            | Raise e => Raise e
            end
      end
  end.

(** Python's argument binding for a call with the positional arguments
    [pos] and the keyword arguments [kw]; a keyword that names no parameter
    is a [TypeError] too. *)
Definition bind_args (ps : list (string * option value))
    (pos : list value) (kw : list (string * value))
    : res (list (string * value)) :=
  if forallb (fun k => has_key k ps) (map fst kw)
  then bind_positional ps pos kw
  else Raise TypeError.

(** The call of [f] with positional arguments [pos] and keywords [kw]. *)
Definition py_call (f : pyfunc) (pos : list value) (kw : list (string * value))
    : M unit := fun w =>
  match bind_args (params f) pos kw with
  | Raise e => (Raise e, w, [EvCall pos kw])
  | Ok env =>
      match body f env w with
      | (r, w') => (r, w', [EvCall pos kw; EvEnter env])
      end
  end.

(** [functools.partial(f, k = v, ...)] called with the positional
    arguments [pos]: the frozen keywords [kw0] are passed along. *)
Definition partial_call (f : pyfunc) (kw0 : list (string * value))
    (pos : list value) : M unit :=
  py_call f pos kw0.

End Store.

(** ** [multiprocessing.pool.ThreadPool] *)

(** [ThreadPool(n)], the [made]-th pool of the process: a pool needs at
    least one worker. *)
Definition ThreadPool_new (made n : nat) : res ThreadPool * trace :=
  if (n <? 1)%nat then (Raise ValueError, [])
  else (Ok (mkPool made n), [EvPoolCreate (mkPool made n)]).

(** The chunk size [_map_async] computes when none is given:
    [divmod(len(iterable), len(pool) * 4)], one more when there is a
    remainder, and none at all for an empty iterable. A pool has at least
    one worker, so the divisor is never zero. *)
Definition chunksize (len nproc : nat) : nat :=
  if (len =? 0)%nat then 0
  else if (len mod (nproc * 4) =? 0)%nat then len / (nproc * 4)
       else S (len / (nproc * 4)).

(** [Pool._get_tasks]: the iterable cut into consecutive slices of [size]
    elements, until a slice comes out empty. There are at most as many
    slices as elements, which is the [fuel] the callers give. *)
Fixpoint get_tasks {X} (fuel size : nat) (l : list X) : list (list X) :=
  match fuel with
  | O => []
  | S fuel' =>
      match firstn size l with
      | [] => []
      | x => x :: get_tasks fuel' size (skipn size l)
      end
  end.

(** A chunk that a worker is processing: the argument tuples it has not
    applied yet. *)
Definition job : Type := list (list value).

(** [try: r = (True, m) except Exception as e: r = (False, e)], as a worker
    wraps what it runs. *)
Definition attempt {A} (m : M A) : M (res A) := fun w =>
  match m w with
  | (r, w1, t1) => (Ok r, w1, t1)
  end.

(** [MapResult] keeps the first exception that reaches it. *)
Definition first_exc (old : option exn) (new : option exn) : option exn :=
  match old with
  | Some e => Some e
  | None => new
  end.

Fixpoint replace_nth {X} (k : nat) (x : X) (l : list X) : list X :=
  match k, l with
  | _, [] => []
  | O, _ :: tl => x :: tl
  | S j, y :: tl => y :: replace_nth j x tl
  end.

Section Pool.
Variable func : list value -> M unit.

(** One application by the worker that holds chunk [k]: the next tuple of
    the chunk is applied; when the call raises, the chunk ends there (the
    rest of [itertools.starmap] over the chunk is never computed) and the
    exception goes to the [MapResult]. *)
Definition worker_step (k : nat) (st : list job * option exn)
    : M (list job * option exn) :=
  match nth_error (fst st) k with
  | Some (a :: rest) =>
      r <- attempt (func a) ;;
      match r with
      | Ok _ =>
          emit (EvReturn a) ;;
          ret (replace_nth k rest (fst st), snd st)
      | Raise e =>
          emit (EvRaise a e) ;;
          ret (replace_nth k [] (fst st), first_exc (snd st) (Some e))
      end
  | _ => ret st
  end.

(** The workers interleave: [sched] names, step after step, the chunk whose
    worker makes the next application. *)
Fixpoint run_sched (sched : list nat) (st : list job * option exn)
    : M (list job * option exn) :=
  match sched with
  | [] => ret st
  | k :: sched' => st' <- worker_step k st ;; run_sched sched' st'
  end.

(** A chunk run to its end. *)
Fixpoint run_job (j : job) : M (option exn) :=
  match j with
  | [] => ret None
  | a :: rest =>
      r <- attempt (func a) ;;
      match r with
      | Ok _ => emit (EvReturn a) ;; run_job rest
      | Raise e => emit (EvRaise a e) ;; ret (Some e)
      end
  end.

(** [MapResult.get] returns only when no chunk is left: what the schedule
    has not run is run to its end, chunk after chunk. *)
Fixpoint drain (js : list job) (exc : option exn) : M (option exn) :=
  match js with
  | [] => ret exc
  | j :: tl => r <- run_job j ;; drain tl (first_exc exc r)
  end.

(** [pool.starmap(func, items)]: the items are cut into chunks, the chunks
    are handed to the workers, the caller waits until every chunk has
    ended, and then gets the results or the first exception. *)
Definition starmap (pool : ThreadPool) (items : list (list value))
    (sched : list nat) : M unit :=
  emit (EvStarmap pool items) ;;
  st <- run_sched sched
          (get_tasks (length items)
                     (chunksize (length items) (processes pool)) items,
           None) ;;
  exc <- drain (fst st) (snd st) ;;
  match exc with
  | None => ret tt
  | Some e => raise e
  end.

End Pool.

(** ** [uploader.py] *)

Section Uploader.
Context `{DB : ManageDB}.

(** The globals that loading [uploader.py] defines. *)
Record uploader_module : Type := mkModule {
  POOL : ThreadPool
}.

(** Loading the module: [POOL = pool.ThreadPool(cpu_count())], in a process
    that has constructed [made] pools so far. *)
Definition load_uploader (made cpu_count : nat) : res uploader_module * trace :=
  match ThreadPool_new made cpu_count with
  | (Ok p, t) => (Ok (mkModule p), t)
  | (Raise e, t) => (Raise e, t)
  end.

Variable G : uploader_module.

(** [task[i]] on a fetched tuple. *)
Definition tuple_get (r : row) (i : nat) : M value :=
  match nth_error r i with
  | Some v => ret v
  | None => raise IndexError
  end.

(** The loop that fills [upload_pool]. *)
Fixpoint build_upload_pool (tasks_list : list row) : M (list (list value)) :=
  match tasks_list with
  | [] => ret []
  | task :: tl =>
      store <- tuple_get task TSK_STORE_INDEX ;;
      shr <- tuple_get task TSK_SHR_INDEX ;;
      rest <- build_upload_pool tl ;;
      ret ([store; shr] :: rest)
  end.

Definition is_DBException (e : exn) : bool :=
  match e with DBException => true | _ => false end.

(** The [try] block of [begin_uploads]: [Some] of the fetched rows, or
    [None] when the handler ran and the function is to return. *)
Definition fetch_processed : M (option (list row)) :=
  try_except
    (tasks_list <- with_connect (cur <- execute CMD_GET_FOLDERS [] ;;
                                 fetchall cur) ;;
     ret (Some tasks_list))
    is_DBException
    (fun error =>
       LOG_warning (Msg "Failed to connect to database") ;;
       LOG_debug (MsgExn error) ;;
       ret None).

(** [Uploader.begin_uploads(client, up_func)]; [sched] is the interleaving
    of the pool's workers during this call. *)
Definition begin_uploads (sched : list nat) (client : value) (up_func : pyfunc)
    : M unit :=
  fetched <- fetch_processed ;;
  match fetched with
  | None => ret tt
  | Some tasks_list =>
      upload_pool <- build_upload_pool tasks_list ;;
      match upload_pool with
      | [] => ret tt
      | _ :: _ =>
          starmap (partial_call up_func [("client", client)])
                  (POOL G) upload_pool sched
      end
  end.

(** [Uploader._remove(folder)]. *)
Definition _remove (folder : string) : M unit :=
  with_connect (execute CMD_RM_TASK [VStr folder]) ;;
  rmtree folder.

(** The signature of the abstract [Uploader._upload(client, folder,
    share_list)]; its body is [pass]. *)
Definition _upload_params : list (string * option value) :=
  [("client", None); ("folder", None); ("share_list", None)].

Definition _upload : pyfunc :=
  mkFun _upload_params (fun _ w => (Ok tt, w)).

(** One firing of the [run_uploader] job by the scheduler: the arguments
    bound at registration and the interleaving of the workers that time. *)
Record firing : Type := mkFiring {
  f_sched : list nat;
  f_client : value;
  f_up_func : pyfunc
}.

(** The firings of a process, one after the other; a firing that raises
    does not keep the next one from running. *)
Fixpoint run_firings (fl : list firing) (w : World) : World * trace :=
  match fl with
  | [] => (w, [])
  | f :: tl =>
      match begin_uploads (f_sched f) (f_client f) (f_up_func f) w with
      | (_, w1, t1) =>
          match run_firings tl w1 with
          | (w2, t2) => (w2, t1 ++ t2)
          end
      end
  end.

(** The events [begin_uploads] itself can emit: logging, the one [SELECT],
    the submission to the module's pool and what the pool's workers do. It
    never executes another statement, never constructs a pool and never
    removes a folder. *)
Definition dispatch_event (e : event) : Prop :=
  match e with
  | EvLog _ _ => True
  | EvExecute cmd args => cmd = CMD_GET_FOLDERS /\ args = []
  | EvStarmap p _ => p = POOL G
  | EvCall _ _ | EvEnter _ | EvReturn _ | EvRaise _ _ => True
  | EvPoolCreate _ | EvRmtree _ => False
  end.

End Uploader.

(** The event with which a worker closes the application to the tuple [a],
    by what the application gave. *)
Definition closing {A} (a : list value) (r : res A) : event :=
  match r with
  | Ok _ => EvReturn a
  | Raise e => EvRaise a e
  end.


(** ** What a cycle may not change *)

Section Statuses.
Context `{DB : ManageDB}.

Definition rows_of (w : World) : list row :=
  match tasks w with
  | Some rows => rows
  | None => []
  end.

(** The tasks of the store with the status each is in. *)
Definition task_statuses (w : World) : list (value * value) :=
  map (fun r => (col store_path_col r, col status_col r)) (rows_of w).

(** Every task that [w'] stores has in [w'] the status it has in [w]. *)
Definition statuses_kept (w w' : World) : Prop :=
  incl (task_statuses w') (task_statuses w).

End Statuses.

(** The world after the bodies of some upload calls ran on it, one after
    the other, each with the parameters [env] it was entered with. *)
Definition after_uploads (up : pyfunc) (envs : list (list (string * value)))
    (w : World) : World :=
  fold_left (fun w0 env => snd (body up env w0)) envs w.

(** ** A concrete installation *)

Module Example.

(** A [tasks] table whose columns are store path, share list and status. *)
Definition db : ManageDB := {|
  TSK_STORE_INDEX := 0;
  TSK_SHR_INDEX := 1;
  store_path_col := 0;
  share_list_col := 1;
  status_col := 2;
  connect_exit := fun e => e
|}.

Definition row_a : row := [VStr "/rec/a"; VStr "x@y"; VStr "processed"].
Definition row_b : row := [VStr "/rec/b"; VStr "z"; VStr "uploading"].

Definition files : filesystem :=
  [("/rec/a", Dir); ("/rec/a/f.mp4", File); ("/rec/ab", Dir); ("/rec/b", Dir)].

Definition world : World := mkWorld true (Some [row_a; row_b]) files.

(** The same installation with nothing to upload. *)
Definition idle : World := mkWorld true (Some [row_b]) files.

(** The store cannot be reached. *)
Definition offline : World := mkWorld false (Some [row_a; row_b]) files.

Definition G : uploader_module := mkModule (mkPool 0 4).

Definition client : value := VObj 7.

(** An upload function that takes the client last, so that the two
    positional arguments of the dispatcher fall on [folder] and
    [share_list]; it uploads and leaves the world alone. *)
Definition upload_client_last : pyfunc :=
  mkFun [("folder", None); ("share_list", None); ("client", None)]
        (fun _ w => (Ok tt, w)).

(** An upload function that fails on the folder [p] and succeeds on the
    others. *)
Definition upload_raising_on (p : string) : pyfunc :=
  mkFun [("folder", None); ("share_list", None); ("client", None)]
        (fun env w =>
           match assoc "folder" env with
           | Some (VStr q) =>
               if String.eqb q p then (Raise (Other 1), w) else (Ok tt, w)
           | _ => (Ok tt, w)
           end).

Definition processed_row (p : string) : row :=
  [VStr p; VStr "s"; VStr "processed"].

(** Five folders wait for their upload on a machine with one CPU. *)
Definition busy : World :=
  mkWorld true
    (Some (map processed_row ["/rec/1"; "/rec/2"; "/rec/3"; "/rec/4"; "/rec/5"]))
    files.

Definition G1 : uploader_module := mkModule (mkPool 0 1).

End Example.

(** ** [nephos.py]: what happens when the module is loaded *)

Module NephosMain.

Inductive subsystem : Type :=
| Configuration
| Database
| SchedulerSub
| Channels
| Jobs
| MaintenanceSub.

(** The statements of [nephos.py] and of [Nephos.__init__], as the process
    executes them. *)
Inductive step : Type :=
| Import (name : string)
| GetLogger
| AcquireLock                    (* _ = SingleInstance() *)
| LogError (e : exn)             (* LOG.error(err) *)
| SysExit (code : Z)             (* sys.exit(code) *)
| ClassDefined (name : string)   (* class Nephos(ABC): ... *)
| FirstTimeCheck
| Init (s : subsystem)
| FirstTimeSetup
| SchedulerStart.

(** How the load of the module ends: the module object with its class, the
    process exiting with a status, or an exception that nothing in the
    module handles. *)
Inductive loaded : Type :=
| Module_ (class_name : string)
| Exit (status : Z)
| Uncaught (e : exn).

(** The status a process ends with when [SystemExit(code)] reaches the top:
    the low eight bits of the code. *)
Definition exit_status (code : Z) : Z := Z.land code 255.

Definition imports : list step :=
  [Import "abc"; Import "click"; Import "logging"; Import "sys";
   Import "first_time"; Import "custom_exceptions"; Import "load_config";
   Import "manage_db"; Import "scheduler"; Import "recorder.channels";
   Import "recorder.jobs"; Import "maintenance.main";
   Import "maintenance.single_instance"; Import "custom_exceptions"].

Definition is_SingleInstanceException (e : exn) : bool :=
  match e with SingleInstanceException => true | _ => false end.

(** The body of the module. [acquire] is what [SingleInstance()] does in
    this run: it returns the guard or raises. *)
Definition load_nephos (acquire : res unit) : loaded * list step :=
  let head := imports ++ [GetLogger; AcquireLock] in
  match acquire with
  | Ok _ => (Module_ "Nephos", head ++ [ClassDefined "Nephos"])
  | Raise err =>
      if is_SingleInstanceException err
      then (Exit (exit_status (-1)), head ++ [LogError err; SysExit (-1)])
      else (Uncaught err, head)
  end.

(** [Nephos.__init__]: configuration, then database, scheduler and the
    other handlers, then the first-run set-up. *)
Definition Nephos_init (first_time : bool) : list step :=
  [FirstTimeCheck; Init Configuration; Init Database; Init SchedulerSub;
   Init Channels; Init Jobs; Init MaintenanceSub]
  ++ (if first_time then [FirstTimeSetup] else []).

(** [Nephos.start]. *)
Definition Nephos_start : list step := [SchedulerStart].

(** A process that imports [nephos] and then runs [client_code], which can
    use the class only if the import gave a module. *)
Definition run_process (acquire : res unit)
    (client_code : string -> list step) : loaded * list step :=
  match load_nephos acquire with
  | (Module_ c, t) => (Module_ c, t ++ client_code c)
  | (r, t) => (r, t)
  end.

Definition is_init (s : step) : bool :=
  match s with
  | Init _ | FirstTimeCheck | FirstTimeSetup | SchedulerStart => true
  | _ => false
  end.

End NephosMain.

(** ** Reading a trace *)

(** The argument tuple whose application an event closes, if it closes one. *)
Definition closed_of (e : event) : list (list value) :=
  match e with
  | EvReturn a | EvRaise a _ => [a]
  | _ => []
  end.

(** The applications that workers saw end, in the order they ended. *)
Definition closed (t : trace) : list (list value) := flat_map closed_of t.

(** The applications that workers saw return. *)
Definition returned (t : trace) : list (list value) :=
  flat_map (fun e => match e with EvReturn a => [a] | _ => [] end) t.

(** The exceptions that workers saw, in the order they were raised. *)
Definition raised (t : trace) : list exn :=
  flat_map (fun e => match e with EvRaise _ x => [x] | _ => [] end) t.

(** The batches handed to a pool. *)
Definition submissions (t : trace) : list (list (list value)) :=
  flat_map (fun e => match e with EvStarmap _ items => [items] | _ => [] end) t.

(** The bodies that were entered, by the parameters they were entered
    with. *)
Definition entered (t : trace) : list (list (string * value)) :=
  flat_map (fun e => match e with EvEnter env => [env] | _ => [] end) t.

(** What [MapResult.get] gives for the exceptions the workers saw. *)
Definition map_result (excs : list exn) : res unit :=
  match excs with
  | [] => Ok tt
  | e :: _ => Raise e
  end.

(** What one phase of the pool does to the chunks [js]: the applications it
    closed, the tuples still waiting in [js'] and the tuples [d] that were
    given up make up [js]; tuples are given up only behind an exception
    and only from chunks of more than one tuple. *)
Definition accounted (js js' : list job) (exc exc' : option exn)
    (t : trace) : Prop :=
  exists d,
    Permutation (closed t ++ concat js' ++ d) (concat js) /\
    exc' = first_exc exc (hd_error (raised t)) /\
    (raised t = [] -> d = []) /\
    (Forall (fun j => length j <= 1) js -> d = []) /\
    (forall c, Forall (fun j => length j <= c) js ->
               Forall (fun j => length j <= c) js').

Section Snapshot.
Context `{DB : ManageDB}.

(** The [upload_pool] that [begin_uploads] builds from the rows of the
    table: store path and share list of every processed row. *)
Definition snapshot_items (rows : list row) : list (list value) :=
  map (fun r => [col TSK_STORE_INDEX r; col TSK_SHR_INDEX r])
      (filter is_processed rows).

(** The rows are wide enough for the two indices the dispatcher reads. *)
Definition indexable (rows : list row) : Prop :=
  forall r, In r rows ->
    TSK_STORE_INDEX < length r /\ TSK_SHR_INDEX < length r.

End Snapshot.

(** ** [nephos.py]: [Nephos.load_channels_sharelist] *)

Section Channels.
Context `{DB : ManageDB}.

Definition LOG_error (m : logmsg) : M unit := emit (EvLog ERROR m).

(** What evaluating [data["channels"]] gives for the loaded data: the
    value under the key, or the exception of the failed subscript. *)
Variable data_channels : res value.

(** [ChannelHandler.insert_channels(db_cur, channels)], of
    [recorder.channels], which is not among the sources. *)
Variable insert_channels : value -> M unit.

(** The [try] statement of [load_channels_sharelist], once [input] and
    [load_data] have given the data. *)
Definition load_channels_sharelist : M unit :=
  try_except
    (with_connect
       (match data_channels with
        | Ok channels => insert_channels channels
        | Raise e => raise e
        end))
    is_DBException
    (fun err =>
       LOG_warning (Msg "Data addition failed") ;;
       LOG_error (MsgExn err)).

End Channels.

(** ** [uploader.py]: constructing an [Uploader] *)

Module UploaderInit.

(** What can end the constructor: a failed subscript of a dictionary, or
    an exception of the code it calls. *)
Inductive failure : Type :=
| KeyError (key : string)
| Exc (e : exn).

Inductive outcome (A : Type) : Type :=
| Done (a : A)
| Failed (f : failure).
Arguments Done {A} a.
Arguments Failed {A} f.

(** The callables that [job_funcs] maps job names to. *)
Inductive callback : Type :=
| Begin_uploads.

(** What [add_cron_necessary_job(func, name, start_time, repetition, args)]
    receives; [args] is the list of the client and the upload function. *)
Record registration : Type := mkReg {
  reg_func : callback;
  reg_name : string;
  reg_start_time : value;
  reg_repetition : value;
  reg_client : value;
  reg_up_func : pyfunc
}.

Inductive init_event : Type :=
| GotConfig
| GotClient
| LogDebug (fmt : string) (arg : string)
| AddJob (r : registration).

(** [d[key]] on a dictionary. *)
Definition subscript {A} (d : list (string * A)) (key : string) : outcome A :=
  match assoc key d with
  | Some v => Done v
  | None => Failed (KeyError key)
  end.

Section Init.

(** The pieces the abstract class leaves to its environment: the
    configuration that [get_uploader_config] returns, what the subclass's
    [_get_client] gives, its [_upload], and whether the scheduler accepts a
    registration. *)
Variable get_uploader_config : outcome (list (string * value)).
Variable _get_client : outcome value.
Variable _upload : pyfunc.
Variable add_cron_necessary_job : registration -> option exn.

Definition jobs : list string := ["run_uploader"].

Definition job_funcs : list (string * callback) :=
  [("run_uploader", Begin_uploads)].

(** The loop of [_add_to_scheduler] over [jobs]; the arguments of the call
    are evaluated from left to right before the scheduler is called. *)
Fixpoint add_jobs (config : list (string * value)) (client : value)
    (js : list string) : outcome unit * list init_event :=
  match js with
  | [] => (Done tt, [])
  | job :: tl =>
      let log := LogDebug "Adding %s default job to scheduler..." job in
      match subscript job_funcs job with
      | Failed f => (Failed f, [log])
      | Done func =>
          match subscript config "start_time" with
          | Failed f => (Failed f, [log])
          | Done start =>
              match subscript config "repetition" with
              | Failed f => (Failed f, [log])
              | Done rep =>
                  let r := mkReg func job start rep client _upload in
                  match add_cron_necessary_job r with
                  | Some e => (Failed (Exc e), [log; AddJob r])
                  | None =>
                      match add_jobs config client tl with
                      | (o, t) => (o, log :: AddJob r :: t)
                      end
                  end
              end
          end
      end
  end.

(** [Uploader._add_to_scheduler]: the client is obtained first, then the
    jobs are added. *)
Definition _add_to_scheduler (config : list (string * value))
    : outcome unit * list init_event :=
  match _get_client with
  | Failed f => (Failed f, [])
  | Done client =>
      match add_jobs config client jobs with
      | (o, t) => (o, GotClient :: t)
      end
  end.

(** [Uploader.__init__(scheduler)]. *)
Definition Uploader_init : outcome unit * list init_event :=
  match get_uploader_config with
  | Failed f => (Failed f, [])
  | Done config =>
      match _add_to_scheduler config with
      | (o, t) => (o, GotConfig :: t)
      end
  end.

(** The registrations the scheduler was asked for. *)
Definition registrations (t : list init_event) : list registration :=
  flat_map (fun e => match e with AddJob r => [r] | _ => [] end) t.

End Init.

(** The scheduler firing a registered job: the callback applied to the
    arguments bound at registration. *)
Definition fire `{DB : ManageDB} (G : uploader_module) (sched : list nat)
    (r : registration) : M unit :=
  match reg_func r with
  | Begin_uploads => begin_uploads G sched (reg_client r) (reg_up_func r)
  end.

End UploaderInit.

Section Binding.
Context `{DB : ManageDB}.



(** The body a call of [up] with the positional arguments [a] and the
    client as keyword enters, if it enters one. *)
Definition enters (up : pyfunc) (client : value) (a : list value)
    : list (list (string * value)) :=
  match bind_args (params up) a [("client", client)] with
  | Ok env => [env]
  | Raise _ => []
  end.

End Binding.

(** ** More of the concrete installation *)

Module MoreExample.

(** The index constants of an installation whose [manage_db] counts a
    column the [tasks] table does not have. *)
Definition db_off : ManageDB := {|
  TSK_STORE_INDEX := 0;
  TSK_SHR_INDEX := 3;
  store_path_col := 0;
  share_list_col := 1;
  status_col := 2;
  connect_exit := fun e => e
|}.

Definition items_a : list (list value) := [[VStr "/rec/a"; VStr "x@y"]].

Definition busy_items : list (list value) :=
  [[VStr "/rec/1"; VStr "s"]; [VStr "/rec/2"; VStr "s"];
   [VStr "/rec/3"; VStr "s"]; [VStr "/rec/4"; VStr "s"];
   [VStr "/rec/5"; VStr "s"]].

(** The job fires twice with the upload function that leaves the world
    alone. *)
Definition two_firings : list firing :=
  [mkFiring [] Example.client Example.upload_client_last;
   mkFiring [0] Example.client Example.upload_client_last].

Definition config : list (string * value) :=
  [("start_time", VStr "now"); ("repetition", VInt 10)].

Definition config_no_repetition : list (string * value) :=
  [("start_time", VStr "now")].

(** A scheduler that accepts every job. *)
Definition accept_all (r : UploaderInit.registration) : option exn := None.

(** An insertion of channels that fails inside the store. *)
Definition insert_fails (channels : value) : M unit := raise Sqlite3Error.

End MoreExample.

(** ** What a cycle hands to the pool *)

(** The argument tuples of the calls that were made, in order. *)
Definition called (t : trace) : list (list value) :=
  flat_map (fun e => match e with EvCall a _ => [a] | _ => [] end) t.

(** The batches handed to a pool, each with the pool it was handed to. *)
Definition submitted (t : trace) : list (ThreadPool * list (list value)) :=
  flat_map (fun e => match e with
                     | EvStarmap p items => [(p, items)]
                     | _ => []
                     end) t.

(** What the workers of the pool do for the dispatcher: they call the
    upload function with the client as its only keyword, its body starts,
    and the call returns or raises. *)
Definition worker_event (client : value) (e : event) : Prop :=
  match e with
  | EvCall _ kw => kw = [("client", client)]
  | EvEnter _ | EvReturn _ | EvRaise _ _ => True
  | _ => False
  end.

(** * Facts about the monad and the pool *)

Ltac inv H := inversion H; subst; clear H.

Section PoolInvariant.
Variable func : list value -> M unit.
Variable I : World -> Prop.
Variable P : event -> Prop.
Hypothesis func_inv : forall a w r w' t,
  func a w = (r, w', t) -> I w ->
  I w' /\ Forall P t /\ P (closing a r).

Lemma worker_step_inv k st w r w' t :
  worker_step func k st w = (r, w', t) -> I w -> I w' /\ Forall P t.
Proof.
  unfold worker_step. intros H HI.
  destruct (nth_error (fst st) k) as [[|a rest]|].
  - inv H. auto.
  - unfold bind, attempt, emit, ret in H.
    destruct (func a w) as [[ra wa] ta] eqn:Ef.
    destruct (func_inv _ _ _ _ _ Ef HI) as (HI' & HP & Hc).
    destruct ra; inv H; split; auto;
      rewrite Forall_app; split; auto.
  - inv H. auto.
Qed.

Lemma run_sched_inv sched : forall st w r w' t,
  run_sched func sched st w = (r, w', t) -> I w -> I w' /\ Forall P t.
Proof.
  induction sched as [|k sched IH]; simpl; intros st w r w' t H HI.
  - inv H. auto.
  - unfold bind in H.
    destruct (worker_step func k st w) as [[r1 w1] t1] eqn:E1.
    destruct (worker_step_inv _ _ _ _ _ _ E1 HI) as [HI1 HP1].
    destruct r1 as [st1|e].
    + destruct (run_sched func sched st1 w1) as [[r2 w2] t2] eqn:E2.
      destruct (IH _ _ _ _ _ E2 HI1) as [HI2 HP2].
      inv H. split; auto. rewrite Forall_app; auto.
    + inv H. auto.
Qed.

Lemma run_job_inv j : forall w r w' t,
  run_job func j w = (r, w', t) -> I w -> I w' /\ Forall P t.
Proof.
  induction j as [|a rest IH]; simpl; intros w r w' t H HI.
  - inv H. auto.
  - unfold bind, attempt, emit, ret in H.
    destruct (func a w) as [[ra wa] ta] eqn:Ef.
    destruct (func_inv _ _ _ _ _ Ef HI) as (HI' & HP & Hc).
    destruct ra.
    + destruct (run_job func rest wa) as [[r2 w2] t2] eqn:E2.
      destruct (IH _ _ _ _ E2 HI') as [HI2 HP2].
      inv H. split; auto.
      rewrite Forall_app; split; auto.
    + inv H. split; auto. rewrite Forall_app; split; auto.
Qed.

Lemma drain_inv js : forall exc w r w' t,
  drain func js exc w = (r, w', t) -> I w -> I w' /\ Forall P t.
Proof.
  induction js as [|j tl IH]; simpl; intros exc w r w' t H HI.
  - inv H. auto.
  - unfold bind in H.
    destruct (run_job func j w) as [[r1 w1] t1] eqn:E1.
    destruct (run_job_inv _ _ _ _ _ E1 HI) as [HI1 HP1].
    destruct r1 as [o|e].
    + destruct (drain func tl (first_exc exc o) w1) as [[r2 w2] t2] eqn:E2.
      destruct (IH _ _ _ _ _ E2 HI1) as [HI2 HP2].
      inv H. split; auto. rewrite Forall_app; auto.
    + inv H. auto.
Qed.

Lemma starmap_inv pool items sched w r w' t :
  P (EvStarmap pool items) ->
  starmap func pool items sched w = (r, w', t) -> I w -> I w' /\ Forall P t.
Proof.
  intros HPs H HI. unfold starmap in H.
  unfold bind at 1 in H. unfold emit at 1 in H.
  unfold bind at 1 in H.
  match type of H with context [run_sched func sched ?s w] =>
    destruct (run_sched func sched s w) as [[r1 w1] t1] eqn:E1 end.
  destruct (run_sched_inv _ _ _ _ _ _ E1 HI) as [HI1 HP1].
  destruct r1 as [st1|e].
  - unfold bind in H.
    destruct (drain func (fst st1) (snd st1) w1) as [[r2 w2] t2] eqn:E2.
    destruct (drain_inv _ _ _ _ _ _ E2 HI1) as [HI2 HP2].
    destruct r2 as [[e|]|e]; unfold raise, ret in H; inv H; split; auto;
      constructor; auto; rewrite ?Forall_app; auto.
  - inv H. split; auto.
Qed.

End PoolInvariant.

Section PoolBarrier.
Variable func : list value -> M unit.
Variable mark : list value -> event.
Hypothesis func_mark : forall a w r w' t,
  func a w = (r, w', t) -> In (mark a) t.











End PoolBarrier.

Lemma chunksize_pos len nproc : 0 < len -> 1 <= chunksize len nproc.
Proof.
  intros Hl. unfold chunksize.
  destruct (Nat.eqb_spec len 0); [lia|].
  destruct (Nat.eqb_spec (len mod (nproc * 4)) 0) as [Hm|Hm]; [|lia].
  destruct (Nat.eq_dec (nproc * 4) 0) as [Hz|Hz].
  - rewrite Hz in Hm. simpl in Hm. lia.
  - pose proof (Nat.div_mod_eq len (nproc * 4)) as Hd.
    rewrite Hm in Hd.
    destruct (len / (nproc * 4)); lia.
Qed.

Lemma concat_get_tasks {X} size : 1 <= size -> forall fuel (l : list X),
  length l <= fuel -> concat (get_tasks fuel size l) = l.
Proof.
  intros Hs. induction fuel as [|fuel IH]; intros l Hl.
  - destruct l; simpl in *; [reflexivity | lia].
  - simpl. destruct (firstn size l) as [|y ys] eqn:Ef.
    + destruct l; [reflexivity|]. destruct size; [lia | discriminate].
    + simpl. rewrite IH.
      * change (y :: ys ++ skipn size l) with ((y :: ys) ++ skipn size l).
        rewrite <- Ef. apply firstn_skipn.
      * rewrite length_skipn.
        destruct l as [|x l']; [destruct size; discriminate|].
        cbn [length] in *. lia.
Qed.

Section PoolAllFail.
Variable func : list value -> M unit.
Variable e0 : exn.
Hypothesis func_fails : forall a w, exists t, func a w = (Raise e0, w, t).

Lemma worker_step_fail k js exc w :
  exists t js' exc',
    worker_step func k (js, exc) w = (Ok (js', exc'), w, t) /\
    ((js' = js /\ exc' = exc) \/ exc' = first_exc exc (Some e0)).
Proof.
  unfold worker_step. cbn [fst snd].
  destruct (nth_error js k) as [[|a rest]|].
  - exists [], js, exc. split; auto.
  - destruct (func_fails a w) as [t Ht].
    unfold bind, attempt, emit, ret. rewrite Ht.
    eexists _, _, _. split; [reflexivity | right; reflexivity].
  - exists [], js, exc. split; auto.
Qed.

Lemma run_sched_fail sched : forall js exc w,
  exc = None \/ exc = Some e0 ->
  exists t js' exc',
    run_sched func sched (js, exc) w = (Ok (js', exc'), w, t) /\
    ((js' = js /\ exc' = exc) \/ exc' = Some e0).
Proof.
  induction sched as [|k sched IH]; simpl; intros js exc w Hexc.
  - exists [], js, exc. split; auto.
  - destruct (worker_step_fail k js exc w) as (t1 & js1 & exc1 & E1 & H1).
    assert (Hexc1 : exc1 = None \/ exc1 = Some e0).
    { destruct H1 as [[_ ->]| ->]; auto.
      destruct Hexc as [-> | ->]; auto. }
    destruct (IH js1 exc1 w Hexc1) as (t2 & js2 & exc2 & E2 & H2).
    unfold bind. rewrite E1, E2.
    eexists _, js2, exc2. split; [reflexivity|].
    destruct H2 as [[-> ->]|H2]; auto.
    destruct H1 as [[-> ->]| ->]; auto.
    destruct Hexc as [-> | ->]; auto.
Qed.

Lemma run_job_fail j w :
  exists t,
    run_job func j w
    = (Ok (match j with [] => None | _ :: _ => Some e0 end), w, t).
Proof.
  destruct j as [|a rest]; simpl.
  - exists []. reflexivity.
  - destruct (func_fails a w) as [t Ht].
    unfold bind, attempt, emit, ret. rewrite Ht.
    eexists. reflexivity.
Qed.

Lemma drain_fail_some js : forall e w,
  exists t, drain func js (Some e) w = (Ok (Some e), w, t).
Proof.
  induction js as [|j tl IH]; simpl; intros e w.
  - exists []. reflexivity.
  - destruct (run_job_fail j w) as [t1 E1].
    destruct (IH e w) as [t2 E2].
    unfold bind. rewrite E1. simpl first_exc. rewrite E2.
    eexists. reflexivity.
Qed.

Lemma drain_fail_head a rest tl w :
  exists t, drain func ((a :: rest) :: tl) None w = (Ok (Some e0), w, t).
Proof.
  cbn [drain]. destruct (run_job_fail (a :: rest) w) as [t1 E1].
  destruct (drain_fail_some tl e0 w) as [t2 E2].
  unfold bind. rewrite E1. simpl first_exc. rewrite E2.
  eexists. reflexivity.
Qed.

Lemma starmap_all_fail pool items sched w :
  items <> [] ->
  exists t, starmap func pool items sched w = (Raise e0, w, t).
Proof.
  intros Hne. unfold starmap.
  destruct items as [|x xs]; [congruence|].
  pose proof (chunksize_pos (length (x :: xs)) (processes pool)) as Hc.
  destruct (chunksize (length (x :: xs)) (processes pool)) as [|c];
    [simpl in Hc; lia|].
  cbn [length get_tasks firstn skipn].
  unfold bind, emit. cbv beta iota.
  match goal with |- context [run_sched func sched (?j, None) w] =>
    destruct (run_sched_fail sched j None w (or_introl eq_refl))
      as (t1 & js1 & exc1 & E1 & H1) end.
  unfold job in *. rewrite E1. cbn [fst snd].
  destruct H1 as [[-> ->]| ->].
  - match goal with |- context [drain func ((?a :: ?r) :: ?tl) None w] =>
      destruct (drain_fail_head a r tl w) as [t2 E2] end.
    rewrite E2. unfold raise. eexists. reflexivity.
  - destruct (drain_fail_some js1 e0 w) as [t2 E2].
    rewrite E2. unfold raise. eexists. reflexivity.
Qed.

End PoolAllFail.

(** * Facts about [begin_uploads] and [_remove] *)

Section UploaderFacts.
Context `{DB : ManageDB}.
Variable G : uploader_module.

Lemma fetch_processed_ok w rows :
  db_reachable w = true ->
  tasks w = Some rows ->
  fetch_processed w
  = (Ok (Some (filter is_processed rows)), w, [EvExecute CMD_GET_FOLDERS []]).
Proof.
  intros Hr Ht.
  unfold fetch_processed, try_except, bind, with_connect, execute, fetchall, ret.
  rewrite Hr, Ht. reflexivity.
Qed.

Lemma fetch_processed_unreachable w :
  db_reachable w = false ->
  fetch_processed w
  = (Ok None, w,
     [EvLog WARNING (Msg "Failed to connect to database");
      EvLog DEBUG (MsgExn DBException)]).
Proof.
  intros Hr.
  unfold fetch_processed, try_except, bind, with_connect.
  rewrite Hr. reflexivity.
Qed.

Lemma fetch_processed_frame w r w' t :
  fetch_processed w = (r, w', t) ->
  w' = w /\ Forall (dispatch_event G) t.
Proof.
  unfold fetch_processed, try_except, bind, with_connect, execute, fetchall,
    ret, LOG_warning, LOG_debug, emit.
  destruct (db_reachable w); [destruct (tasks w)|]; simpl.
  - intros H; inv H. split; auto. repeat constructor.
  - destruct (is_DBException (connect_exit Sqlite3Error));
      intros H; inv H; split; auto; repeat constructor.
  - intros H; inv H. split; auto. repeat constructor.
Qed.

Lemma tuple_get_pure r i w :
  exists x, tuple_get r i w = (x, w, []).
Proof.
  unfold tuple_get. destruct (nth_error r i); eexists; reflexivity.
Qed.

Lemma build_upload_pool_pure l : forall w,
  exists x, build_upload_pool l w = (x, w, []).
Proof.
  induction l as [|r l IH]; simpl; intros w.
  - eexists; reflexivity.
  - unfold bind, tuple_get.
    destruct (nth_error r TSK_STORE_INDEX); [|eexists; reflexivity].
    simpl. destruct (nth_error r TSK_SHR_INDEX); [|eexists; reflexivity].
    simpl. destruct (IH w) as [x Hx]. rewrite Hx.
    destruct x; eexists; reflexivity.
Qed.

(** Every row has the two positions the dispatcher reads. *)
Lemma build_upload_pool_ok l : forall w,
  (forall r, In r l ->
     TSK_STORE_INDEX < length r /\ TSK_SHR_INDEX < length r) ->
  build_upload_pool l w
  = (Ok (map (fun r => [col TSK_STORE_INDEX r; col TSK_SHR_INDEX r]) l), w, []).
Proof.
  induction l as [|r l IH]; simpl; intros w Hwf.
  - reflexivity.
  - destruct (Hwf r (or_introl eq_refl)) as [H1 H2].
    unfold bind, tuple_get, col.
    rewrite (nth_error_nth' r VNone H1), (nth_error_nth' r VNone H2).
    simpl. rewrite IH by (intros; apply Hwf; auto). reflexivity.
Qed.

End UploaderFacts.

Section DispatchFacts.
Context `{DB : ManageDB}.
Variable G : uploader_module.

Lemma partial_call_inv (I : World -> Prop) up kw :
  (forall env w, I w -> I (snd (body up env w))) ->
  forall a w r w' t,
    partial_call up kw a w = (r, w', t) ->
    I w -> I w' /\ Forall (dispatch_event G) t /\ dispatch_event G (closing a r).
Proof.
  intros Hb a w r w' t H HI. unfold partial_call, py_call in H.
  destruct (bind_args (params up) a kw) as [env|e].
  - specialize (Hb env w HI).
    destruct (body up env w) as [rb wb]. inv H. split; auto.
    split; [repeat constructor | destruct r; exact Logic.I].
  - inv H. split; auto. split; [repeat constructor | exact Logic.I].
Qed.


(** [begin_uploads] changes the world only through the bodies of the upload
    calls, and emits only the events of a dispatch. *)
Lemma begin_uploads_inv (I : World -> Prop) sched client up :
  (forall env w, I w -> I (snd (body up env w))) ->
  forall w r w' t,
    begin_uploads G sched client up w = (r, w', t) ->
    I w -> I w' /\ Forall (dispatch_event G) t.
Proof.
  intros Hb w r w' t H HI. unfold begin_uploads in H.
  unfold bind at 1 in H.
  destruct (fetch_processed w) as [[r1 w1] t1] eqn:E1.
  destruct (fetch_processed_frame G _ _ _ _ E1) as [-> HP1].
  destruct r1 as [[rows|]|e].
  - unfold bind at 1 in H.
    destruct (build_upload_pool_pure rows w) as [x Hx]. rewrite Hx in H.
    destruct x as [[|a items]|e].
    + inv H. split; auto. rewrite !app_nil_r. auto.
    + match type of H with context [starmap ?f ?p ?i ?s w] =>
        destruct (starmap f p i s w) as [[r2 w2] t2] eqn:E2 end.
      inv H.
      destruct (starmap_inv _ I (dispatch_event G)
                  (partial_call_inv I up _ Hb)
                  _ _ _ _ _ _ _ eq_refl E2 HI) as [HI2 HP2].
      split; auto. rewrite Forall_app. split; auto.
    + inv H. split; auto. rewrite app_nil_r. auto.
  - inv H. split; auto. rewrite app_nil_r. auto.
  - inv H. auto.
Qed.

End DispatchFacts.

Section DispatchClaims.
Context `{DB : ManageDB}.
Variable G : uploader_module.

Lemma sql_eq_text v s : sql_eq v (VStr s) = true <-> v = VStr s.
Proof.
  destruct v; simpl; split; try discriminate.
  - intros H. apply String.eqb_eq in H. congruence.
  - intros H. inv H. apply String.eqb_refl.
Qed.

Lemma is_processed_iff r :
  is_processed r = true <-> col status_col r = VStr "processed".
Proof. apply sql_eq_text. Qed.

Lemma build_upload_pool_result l : forall w items w' t,
  build_upload_pool l w = (Ok items, w', t) ->
  items = map (fun r => [col TSK_STORE_INDEX r; col TSK_SHR_INDEX r]) l.
Proof.
  induction l as [|r l IH]; simpl; intros w items w' t H.
  - inv H. reflexivity.
  - unfold bind, tuple_get in H.
    destruct (nth_error r TSK_STORE_INDEX) as [a|] eqn:Ea; [|inv H].
    simpl in H.
    destruct (nth_error r TSK_SHR_INDEX) as [b|] eqn:Eb; [|inv H].
    simpl in H.
    destruct (build_upload_pool l w) as [[x wx] tx] eqn:Ex.
    destruct x as [rest|e]; [|inv H].
    simpl in H. inv H.
    rewrite (IH _ _ _ _ Ex). unfold col.
    rewrite (nth_error_nth _ _ VNone Ea), (nth_error_nth _ _ VNone Eb).
    reflexivity.
Qed.

(** C2. When the connection to the task store fails, [begin_uploads] logs
    the warning (and the exception at debug level) and returns normally:
    the world, with every task and the file system, is what it was, and
    nothing was submitted to the pool or executed. *)
Theorem begin_uploads_store_unreachable sched client up w :
  db_reachable w = false ->
  begin_uploads G sched client up w
  = (Ok tt, w,
     [EvLog WARNING (Msg "Failed to connect to database");
      EvLog DEBUG (MsgExn DBException)]).
Proof.
  intros Hr. unfold begin_uploads, bind.
  rewrite (fetch_processed_unreachable w Hr). reflexivity.
Qed.

(** C9. With no processed task in the store, [begin_uploads] only reads:
    the one [SELECT] is its whole trace (no submission to the pool, no call
    of the upload function), the world is unchanged and it returns. *)
Theorem begin_uploads_empty_snapshot sched client up w rows :
  db_reachable w = true ->
  tasks w = Some rows ->
  filter is_processed rows = [] ->
  begin_uploads G sched client up w
  = (Ok tt, w, [EvExecute CMD_GET_FOLDERS []]).
Proof.
  intros Hr Ht He. unfold begin_uploads, bind.
  rewrite (fetch_processed_ok w rows Hr Ht), He. reflexivity.
Qed.


(** C5. A dispatch cycle flips no status. [begin_uploads] itself writes
    nothing: the world after a cycle is the world before it with only the
    bodies of upload calls applied; the only statement it executes is the
    [SELECT], never [CMD_SET_UPLOADING]; so, the upload function's body
    keeping the statuses, every task stored after the cycle has the status
    it had before. *)
Theorem begin_uploads_keeps_statuses sched client up w r w' t :
  begin_uploads G sched client up w = (r, w', t) ->
  (exists envs, w' = after_uploads up envs w) /\
  (forall args, ~ In (EvExecute CMD_SET_UPLOADING args) t) /\
  (forall cmd args, In (EvExecute cmd args) t -> cmd = CMD_GET_FOLDERS) /\
  ((forall env w0, statuses_kept w0 (snd (body up env w0))) ->
   statuses_kept w w').
Proof.
  intros H.
  destruct (begin_uploads_inv G (fun x => exists envs, x = after_uploads up envs w)
              sched client up)
    with (w := w) (r := r) (w' := w') (t := t) as [HI HP]; auto.
  { intros env w0 [envs ->]. exists (envs ++ [env]).
    unfold after_uploads. rewrite fold_left_app. reflexivity. }
  { exists []. reflexivity. }
  rewrite Forall_forall in HP.
  split; [exact HI|]. split; [|split].
  - intros args Hin. apply HP in Hin. simpl in Hin.
    destruct Hin; discriminate.
  - intros cmd args Hin. apply HP in Hin. simpl in Hin. tauto.
  - intros Hb.
    destruct (begin_uploads_inv G (fun x => statuses_kept w x) sched client up)
      with (w := w) (r := r) (w' := w') (t := t) as [HK _]; auto.
    + intros env w0 Hk. unfold statuses_kept in *.
      eapply incl_tran; [apply Hb | exact Hk].
    + unfold statuses_kept. apply incl_refl.
Qed.

Lemma run_firings_events fl : forall w w' t,
  run_firings G fl w = (w', t) -> Forall (dispatch_event G) t.
Proof.
  induction fl as [|f fl IH]; simpl; intros w w' t H.
  - inv H. constructor.
  - destruct (begin_uploads G (f_sched f) (f_client f) (f_up_func f) w)
      as [[r1 w1] t1] eqn:E1.
    destruct (run_firings G fl w1) as [w2 t2] eqn:E2.
    inv H. rewrite Forall_app. split.
    + destruct (begin_uploads_inv G (fun _ => True) _ _ _
                  (fun _ _ _ => Logic.I) _ _ _ _ E1 Logic.I) as [_ HP].
      exact HP.
    + eapply IH. exact E2.
Qed.

(** C8. The pool is made once, when the module is loaded, with as many
    workers as there are CPUs; whatever the firings of [begin_uploads]
    (any clients, upload functions and interleavings, one firing after the
    other), none constructs a pool and every submission goes to that one
    pool. *)
Theorem pool_is_shared made cpu_count t0 :
  load_uploader made cpu_count = (Ok G, t0) ->
  t0 = [EvPoolCreate (POOL G)] /\
  processes (POOL G) = cpu_count /\
  forall fl w w' t,
    run_firings G fl w = (w', t) ->
    (forall p, ~ In (EvPoolCreate p) t) /\
    (forall p items, In (EvStarmap p items) t -> p = POOL G).
Proof.
  intros Hload. unfold load_uploader, ThreadPool_new in Hload.
  destruct (cpu_count <? 1)%nat; [discriminate|].
  injection Hload as HG Ht0.
  split; [rewrite <- Ht0, <- HG; reflexivity|].
  split; [rewrite <- HG; reflexivity|].
  intros fl w w' t H.
  pose proof (run_firings_events fl w w' t H) as HP.
  rewrite Forall_forall in HP. split.
  - intros p Hin. apply HP in Hin. exact Hin.
  - intros p items Hin. apply HP in Hin. exact Hin.
Qed.

End DispatchClaims.

Section DeclaredSignature.
Context `{DB : ManageDB}.
Variable G : uploader_module.

(** Called the way [begin_uploads] calls it, a function with the
    parameters of [_upload] never gets to its body. *)
Lemma declared_signature_rejects body client a w :
  partial_call (mkFun _upload_params body) [("client", client)] a w
  = (Raise TypeError, w, [EvCall a [("client", client)]]).
Proof.
  unfold partial_call, py_call, bind_args. simpl.
  destruct a as [|v vs]; reflexivity.
Qed.

(** The same call reaches the body, with the store path as [folder] and
    the share list as [share_list], when the client is the last parameter. *)
Lemma client_last_binds body client store shr w :
  bind_args [("folder", None); ("share_list", None); ("client", None)]
            [store; shr] [("client", client)]
  = Ok [("folder", store); ("share_list", shr); ("client", client)]
  /\ exists r w',
      partial_call
        (mkFun [("folder", None); ("share_list", None); ("client", None)] body)
        [("client", client)] [store; shr] w
      = (r, w', [EvCall [store; shr] [("client", client)];
                 EvEnter [("folder", store); ("share_list", shr);
                          ("client", client)]]).
Proof.
  split; [reflexivity|].
  unfold partial_call, py_call. simpl.
  destruct (body _ w) as [r w']. exists r, w'. reflexivity.
Qed.

(** C1. With an upload function that has the parameters the abstract
    [_upload] declares, [(client, folder, share_list)], a cycle with a
    non-empty snapshot binds nothing: every call made by a worker raises
    [TypeError] before the body starts, and [begin_uploads] raises it to
    its caller, the world unchanged. *)
Theorem begin_uploads_declared_signature sched client body w rows :
  db_reachable w = true ->
  tasks w = Some rows ->
  (forall r, In r rows ->
     TSK_STORE_INDEX < length r /\ TSK_SHR_INDEX < length r) ->
  filter is_processed rows <> [] ->
  exists t,
    begin_uploads G sched client (mkFun _upload_params body) w
    = (Raise TypeError, w, t) /\
    (forall env, ~ In (EvEnter env) t) /\
    (forall a, ~ In (EvReturn a) t).
Proof.
  intros Hr Ht Hwf Hne.
  set (up := mkFun _upload_params body).
  set (f := partial_call up [("client", client)]).
  set (P := fun e : event =>
              match e with EvEnter _ | EvReturn _ => False | _ => True end).
  assert (Hf : forall a w0, f a w0
                 = (Raise TypeError, w0, [EvCall a [("client", client)]])).
  { intros a w0. apply declared_signature_rejects. }
  set (items := map (fun r => [col TSK_STORE_INDEX r; col TSK_SHR_INDEX r])
                    (filter is_processed rows)).
  assert (Hi : items <> []).
  { unfold items. intros E. apply map_eq_nil in E. contradiction. }
  destruct (starmap_all_fail f TypeError) with (pool := POOL G)
    (items := items) (sched := sched) (w := w) as [t Et]; auto.
  { intros a w1. eexists. apply Hf. }
  assert (HP : Forall P t).
  { destruct (starmap_inv f (fun _ => True) P) with (pool := POOL G)
      (items := items) (sched := sched) (w := w) (r := @Raise unit TypeError)
      (w' := w) (t := t) as [_ HP]; auto.
    - intros a w0 r w0' t0 Hc _. rewrite Hf in Hc. inv Hc.
      split; auto. split; [repeat constructor | exact Logic.I].
    - exact Logic.I. }
  exists (EvExecute CMD_GET_FOLDERS [] :: t). split; [|split].
  - unfold begin_uploads. unfold bind at 1.
    rewrite (fetch_processed_ok w rows Hr Ht).
    unfold bind at 1.
    rewrite build_upload_pool_ok.
    2:{ intros r Hin. apply filter_In in Hin. apply Hwf. tauto. }
    fold items. destruct items as [|a rest]; [congruence|].
    fold up. fold f. rewrite Et. reflexivity.
  - intros env [Hin|Hin]; [discriminate|].
    rewrite Forall_forall in HP. apply (HP _ Hin).
  - intros a [Hin|Hin]; [discriminate|].
    rewrite Forall_forall in HP. apply (HP _ Hin).
Qed.

End DeclaredSignature.

Section RemoveClaims.
Context `{DB : ManageDB}.

Lemma has_store_path_iff f r :
  has_store_path (VStr f) r = true <-> col store_path_col r = VStr f.
Proof. apply sql_eq_text. Qed.

Lemma within_refl f : within f f = true.
Proof. unfold within. rewrite String.eqb_refl. reflexivity. Qed.

(** What is left of a path after [rmtree f] removed its entries. *)
Lemma fs_lookup_rmtree f q (l : filesystem) :
  fs_lookup q (filter (fun e => negb (within f (fst e))) l)
  = if within f q then None else fs_lookup q l.
Proof.
  unfold fs_lookup. induction l as [|[p n] l IH]; simpl.
  - destruct (within f q); reflexivity.
  - destruct (within f p) eqn:Ep; simpl.
    + rewrite IH. destruct (within f q) eqn:Eq; auto.
      destruct (String.eqb_spec p q) as [->|_]; [congruence | reflexivity].
    + destruct (String.eqb_spec p q) as [->|_].
      * rewrite Ep. reflexivity.
      * exact IH.
Qed.

Lemma _remove_completes f w rows :
  db_reachable w = true ->
  tasks w = Some rows ->
  fs_lookup f (fs w) = Some Dir ->
  _remove f w
  = (Ok tt,
     mkWorld true
       (Some (filter (fun r => negb (has_store_path (VStr f) r)) rows))
       (filter (fun e => negb (within f (fst e))) (fs w)),
     [EvExecute CMD_RM_TASK [VStr f]; EvRmtree f]).
Proof.
  intros Hr Ht Hd.
  unfold _remove, bind, with_connect, execute, rmtree.
  rewrite Hr, Ht. simpl. rewrite Hd. unfold set_fs, set_tasks. simpl.
  rewrite Hr. reflexivity.
Qed.

(** The only way [_remove] completes. *)
Lemma _remove_completed f w w' t :
  _remove f w = (Ok tt, w', t) ->
  exists rows,
    db_reachable w = true /\ tasks w = Some rows /\
    fs_lookup f (fs w) = Some Dir.
Proof.
  unfold _remove, bind, with_connect, execute, rmtree.
  destruct (db_reachable w); [|discriminate].
  destruct (tasks w) as [rows|]; [|discriminate]. simpl.
  destruct (fs_lookup f (fs w)) as [[|]|]; try discriminate.
  intros _. exists rows. auto.
Qed.

(** C4. [_remove f] deletes the rows whose store path is [f] and removes
    the folder [f] with all it holds, in one call: it completes whenever
    the store answers and [f] is a directory, and after a completed call
    no row has store path [f], neither [f] nor anything below it exists,
    and every other row and path is as it was. *)
Theorem remove_row_and_folder f w :
  (db_reachable w = true -> tasks w <> None ->
   fs_lookup f (fs w) = Some Dir ->
   exists w' t, _remove f w = (Ok tt, w', t)) /\
  (forall w' t, _remove f w = (Ok tt, w', t) ->
     (forall r, In r (rows_of w') -> col store_path_col r <> VStr f) /\
     (forall q, within f q = true -> fs_lookup q (fs w') = None) /\
     (forall r, In r (rows_of w) -> col store_path_col r <> VStr f ->
                In r (rows_of w')) /\
     (forall q, within f q = false ->
                fs_lookup q (fs w') = fs_lookup q (fs w)) /\
     t = [EvExecute CMD_RM_TASK [VStr f]; EvRmtree f]).
Proof.
  split.
  - intros Hr Ht Hd. destruct (tasks w) as [rows|] eqn:Et; [|congruence].
    rewrite (_remove_completes f w rows Hr Et Hd). eauto.
  - intros w' t H.
    destruct (_remove_completed _ _ _ _ H) as (rows & Hr & Ht & Hd).
    rewrite (_remove_completes f w rows Hr Ht Hd) in H. inv H.
    unfold rows_of. rewrite Ht. simpl.
    split; [|split; [|split; [|split]]].
    + intros r Hin. apply filter_In in Hin. destruct Hin as [_ Hn].
      intros Hc. apply has_store_path_iff in Hc. rewrite Hc in Hn.
      discriminate.
    + intros q Hq. rewrite fs_lookup_rmtree, Hq. reflexivity.
    + intros r Hin Hn. apply filter_In. split; auto.
      destruct (has_store_path (VStr f) r) eqn:Eh; auto.
      apply has_store_path_iff in Eh. contradiction.
    + intros q Hq. rewrite fs_lookup_rmtree, Hq. reflexivity.
    + reflexivity.
Qed.

(** C10. [_remove] deletes the row before the folder and catches nothing:
    when the connection fails or the statement raises, the exception goes
    to the caller with the world, folder included, as it was and no
    [rmtree] made; and whenever [rmtree] is reached, the [DELETE] has been
    executed before it and the row is gone, whatever [rmtree] then does. *)
Theorem remove_store_error_keeps_folder f w :
  (db_reachable w = false ->
   _remove f w = (Raise DBException, w, [])) /\
  (db_reachable w = true -> tasks w = None ->
   _remove f w
   = (Raise (connect_exit Sqlite3Error), w,
      [EvExecute CMD_RM_TASK [VStr f]])) /\
  (forall r w' t, _remove f w = (r, w', t) ->
     In (EvRmtree f) t ->
     t = [EvExecute CMD_RM_TASK [VStr f]; EvRmtree f] /\
     exists rows,
       tasks w = Some rows /\
       tasks w' = Some (filter (fun r => negb (has_store_path (VStr f) r))
                               rows)).
Proof.
  unfold _remove, bind, with_connect, execute, rmtree.
  split; [|split].
  - intros ->. reflexivity.
  - intros -> ->. reflexivity.
  - intros r w' t.
    destruct (db_reachable w); [|intros H; inv H; intros []].
    destruct (tasks w) as [rows|]; simpl.
    + destruct (fs_lookup f (fs w)) as [[|]|];
        intros H Hin; inv H; split; auto; exists rows; auto.
    + intros H Hin. inv H. simpl in Hin. destruct Hin as [Hc|[]].
      discriminate.
Qed.

End RemoveClaims.

Section GuardClaims.
Import NephosMain.

(** C7. The guard is the first statement of the module after its imports
    and the logger, in every run; when it raises
    [SingleInstanceException] the error is logged and the process exits
    with status 255, the class [Nephos] is never defined, and so no code
    of the process initialises the configuration, the database or the
    scheduler. A module, with its class, comes out only of a run in which
    the guard was acquired. *)
Theorem lock_failure_aborts_startup client_code :
  run_process (Raise SingleInstanceException) client_code
  = (Exit 255,
     imports ++ [GetLogger; AcquireLock;
                 LogError SingleInstanceException; SysExit (-1)]) /\
  255%Z <> 0%Z /\
  (forall s,
     In s (snd (run_process (Raise SingleInstanceException) client_code)) ->
     is_init s = false) /\
  (forall acquire,
     exists rest,
       snd (run_process acquire client_code)
       = imports ++ GetLogger :: AcquireLock :: rest) /\
  (forall acquire c,
     fst (run_process acquire client_code) = Module_ c ->
     exists g, acquire = Ok g).
Proof.
  split; [reflexivity|]. split; [discriminate|]. split; [|split].
  - intros s Hin. simpl in Hin.
    repeat (destruct Hin as [<-|Hin]; [reflexivity|]). destruct Hin.
  - intros acquire. unfold run_process, load_nephos.
    destruct acquire as [g|e].
    + eexists. simpl. reflexivity.
    + destruct (is_SingleInstanceException e); eexists; simpl; reflexivity.
  - intros acquire c. unfold run_process, load_nephos.
    destruct acquire as [g|e].
    + intros _. exists g. reflexivity.
    + destruct (is_SingleInstanceException e); simpl; discriminate.
Qed.

End GuardClaims.

(** * The claims at the example installation *)

Lemma begin_uploads_declared_signature_witness :
  exists t,
    @begin_uploads Example.db Example.G [] Example.client _upload Example.world
    = (Raise TypeError, Example.world, t) /\
    (forall env, ~ In (EvEnter env) t) /\
    (forall a, ~ In (EvReturn a) t).
Proof.
  apply (@begin_uploads_declared_signature Example.db Example.G []
           Example.client (fun _ w => (Ok tt, w)) Example.world
           [Example.row_a; Example.row_b]).
  - reflexivity.
  - reflexivity.
  - intros r [<-|[<-|[]]]; simpl; lia.
  - simpl. discriminate.
Defined.

Lemma begin_uploads_store_unreachable_witness :
  db_reachable Example.offline = false /\
  @begin_uploads Example.db Example.G [] Example.client _upload Example.offline
  = (Ok tt, Example.offline,
     [EvLog WARNING (Msg "Failed to connect to database");
      EvLog DEBUG (MsgExn DBException)]).
Proof.
  split; [reflexivity|].
  apply (@begin_uploads_store_unreachable Example.db Example.G).
  reflexivity.
Defined.

Lemma begin_uploads_empty_snapshot_witness :
  @begin_uploads Example.db Example.G [] Example.client _upload Example.idle
  = (Ok tt, Example.idle, [EvExecute CMD_GET_FOLDERS []]).
Proof.
  apply (@begin_uploads_empty_snapshot Example.db Example.G []
           Example.client _upload Example.idle [Example.row_b]);
    reflexivity.
Defined.


Lemma begin_uploads_keeps_statuses_witness :
  (exists envs,
     Example.world = after_uploads Example.upload_client_last envs Example.world) /\
  (forall args,
    ~ In (EvExecute CMD_SET_UPLOADING args)
         [EvExecute CMD_GET_FOLDERS [];
          EvStarmap (POOL Example.G) [[VStr "/rec/a"; VStr "x@y"]];
          EvCall [VStr "/rec/a"; VStr "x@y"] [("client", Example.client)];
          EvEnter [("folder", VStr "/rec/a"); ("share_list", VStr "x@y");
                   ("client", Example.client)];
          EvReturn [VStr "/rec/a"; VStr "x@y"]]) /\
  @statuses_kept Example.db Example.world Example.world.
Proof.
  destruct (@begin_uploads_keeps_statuses Example.db Example.G []
              Example.client Example.upload_client_last Example.world
              (Ok tt) Example.world _ eq_refl)
    as (Hw & Hn & _ & Hk).
  split; [exact Hw|]. split; [exact Hn|].
  apply Hk. intros env w0. apply incl_refl.
Defined.

Lemma pool_is_shared_witness :
  processes (POOL Example.G) = 4 /\
  forall fl w w' t,
    @run_firings Example.db Example.G fl w = (w', t) ->
    (forall p, ~ In (EvPoolCreate p) t) /\
    (forall p items, In (EvStarmap p items) t -> p = POOL Example.G).
Proof.
  destruct (@pool_is_shared Example.db Example.G 0 4
              [EvPoolCreate (mkPool 0 4)] eq_refl) as (_ & Hp & Hf).
  split; [exact Hp | exact Hf].
Defined.

Lemma remove_row_and_folder_witness :
  exists w',
    @_remove Example.db "/rec/a" Example.world
    = (Ok tt, w', [EvExecute CMD_RM_TASK [VStr "/rec/a"]; EvRmtree "/rec/a"]) /\
    (forall r, In r (rows_of w') ->
               col (@store_path_col Example.db) r <> VStr "/rec/a") /\
    fs_lookup "/rec/a" (fs w') = None /\
    fs_lookup "/rec/a/f.mp4" (fs w') = None /\
    fs_lookup "/rec/ab" (fs w') = Some Dir.
Proof.
  destruct (@remove_row_and_folder Example.db "/rec/a" Example.world)
    as [Hc Hp].
  destruct Hc as (w' & t & E); [reflexivity | discriminate | reflexivity |].
  destruct (Hp w' t E) as (Hrow & Hgone & _ & Hkept & ->).
  exists w'. split; [exact E|]. split; [exact Hrow|].
  split; [apply Hgone; reflexivity|].
  split; [apply Hgone; reflexivity|].
  rewrite (Hkept "/rec/ab" eq_refl). reflexivity.
Defined.

Lemma remove_store_error_keeps_folder_witness :
  @_remove Example.db "/rec/a" Example.offline
  = (Raise DBException, Example.offline, []).
Proof.
  destruct (@remove_store_error_keeps_folder Example.db "/rec/a"
              Example.offline) as (Hoff & _ & _).
  apply Hoff. reflexivity.
Defined.

Lemma lock_failure_aborts_startup_witness :
  NephosMain.is_init NephosMain.AcquireLock = false.
Proof.
  destruct (lock_failure_aborts_startup
              (fun _ => NephosMain.Nephos_init true ++ NephosMain.Nephos_start))
    as (_ & _ & Hni & _ & _).
  apply Hni. simpl. auto 20.
Defined.

(** When an upload raises, the worker gives up the rest of its chunk: on
    one CPU five tasks go out in chunks of two, the first upload fails, the
    second folder is never tried, and [begin_uploads] raises. *)
Lemma chunk_rest_skipped_after_raise :
  exists t,
    @begin_uploads Example.db Example.G1 [] Example.client
      (Example.upload_raising_on "/rec/1") Example.busy
    = (Raise (Other 1), Example.busy, t) /\
    In (EvCall [VStr "/rec/3"; VStr "s"] [("client", Example.client)]) t /\
    ~ In (EvCall [VStr "/rec/2"; VStr "s"] [("client", Example.client)]) t.
Proof.
  eexists. split; [vm_compute; reflexivity|]. split.
  - simpl. auto 20.
  - simpl. intros H.
    repeat (destruct H as [H|H]; [discriminate|]). exact H.
Qed.

(** * More about the pool: every application accounted for *)

Lemma closed_app t1 t2 : closed (t1 ++ t2) = closed t1 ++ closed t2.
Proof. apply flat_map_app. Qed.

Lemma raised_app t1 t2 : raised (t1 ++ t2) = raised t1 ++ raised t2.
Proof. apply flat_map_app. Qed.

Lemma returned_app t1 t2 : returned (t1 ++ t2) = returned t1 ++ returned t2.
Proof. apply flat_map_app. Qed.

Lemma submissions_app t1 t2 :
  submissions (t1 ++ t2) = submissions t1 ++ submissions t2.
Proof. apply flat_map_app. Qed.

Lemma entered_app t1 t2 : entered (t1 ++ t2) = entered t1 ++ entered t2.
Proof. apply flat_map_app. Qed.

Lemma closed_nil_raised t : closed t = [] -> raised t = [].
Proof.
  induction t as [|e t IH]; [reflexivity|].
  destruct e; simpl; try exact IH; discriminate.
Qed.

Lemma closed_nil_returned t : closed t = [] -> returned t = [].
Proof.
  induction t as [|e t IH]; [reflexivity|].
  destruct e; simpl; try exact IH; discriminate.
Qed.


Lemma hd_error_app {X} (l1 l2 : list X) :
  hd_error (l1 ++ l2)
  = match hd_error l1 with Some x => Some x | None => hd_error l2 end.
Proof. destruct l1; reflexivity. Qed.

Lemma first_exc_raised exc t1 t2 :
  first_exc (first_exc exc (hd_error (raised t1))) (hd_error (raised t2))
  = first_exc exc (hd_error (raised (t1 ++ t2))).
Proof.
  rewrite raised_app, hd_error_app.
  destruct exc; simpl; [reflexivity|].
  destruct (hd_error (raised t1)); reflexivity.
Qed.

Lemma concat_replace_nth {X} (js : list (list X)) : forall k j1 j2,
  nth_error js k = Some (j1 ++ j2) ->
  Permutation (j1 ++ concat (replace_nth k j2 js)) (concat js).
Proof.
  induction js as [|y tl IH]; intros [|k] j1 j2 Hn; simpl in *;
    try discriminate.
  - injection Hn as ->. rewrite app_assoc. apply Permutation_refl.
  - rewrite app_assoc.
    eapply Permutation_trans;
      [apply Permutation_app_tail; apply Permutation_app_comm|].
    rewrite <- app_assoc. apply Permutation_app_head. apply IH. exact Hn.
Qed.

Lemma replace_nth_short {X} c (js : list (list X)) : forall k j j',
  nth_error js k = Some j -> length j' <= length j ->
  Forall (fun x => length x <= c) js ->
  Forall (fun x => length x <= c) (replace_nth k j' js).
Proof.
  induction js as [|y tl IH]; intros [|k] j j' Hn Hl Hf; simpl in *;
    try discriminate; inversion Hf; subst; constructor; auto.
  - injection Hn as ->. lia.
  - eapply IH; eauto.
Qed.

Lemma get_tasks_short {X} size : forall fuel (l : list X),
  Forall (fun x => length x <= size) (get_tasks fuel size l).
Proof.
  induction fuel as [|fuel IH]; intros l; simpl; [constructor|].
  destruct (firstn size l) as [|y ys] eqn:Ef; constructor; auto.
  rewrite <- Ef. apply firstn_le_length.
Qed.

Lemma chunksize_small len nproc :
  len <= nproc * 4 -> chunksize len nproc <= 1.
Proof.
  intros Hl. unfold chunksize.
  destruct (Nat.eqb_spec len 0); [lia|].
  assert (Hd : nproc * 4 <> 0) by lia.
  destruct (Nat.eqb_spec (len mod (nproc * 4)) 0) as [Hm|Hm].
  - pose proof (Nat.div_mod_eq len (nproc * 4)) as E. rewrite Hm in E.
    assert (len / (nproc * 4) <= 1); [|lia].
    destruct (len / (nproc * 4)) as [|[|q]]; nia.
  - destruct (Nat.eq_dec len (nproc * 4)) as [->|Hne].
    + rewrite Nat.Div0.mod_same in Hm. lia.
    + rewrite Nat.div_small by lia. lia.
Qed.

Lemma concat_map_nil {X Y} (l : list X) :
  concat (map (fun _ => @nil Y) l) = [].
Proof. induction l; simpl; auto. Qed.

Section PoolAccounting.
Variable func : list value -> M unit.
Hypothesis func_quiet : forall a w r w' t,
  func a w = (r, w', t) -> closed t = [].

Lemma first_exc_None_r exc : first_exc exc None = exc.
Proof. destruct exc; reflexivity. Qed.

Lemma accounted_refl js exc : accounted js js exc exc [].
Proof.
  exists []. simpl. rewrite app_nil_r, first_exc_None_r.
  repeat split; auto.
Qed.

Lemma accounted_trans js0 js1 js2 e0 e1 e2 t1 t2 :
  accounted js0 js1 e0 e1 t1 ->
  accounted js1 js2 e1 e2 t2 ->
  accounted js0 js2 e0 e2 (t1 ++ t2).
Proof.
  intros (d1 & P1 & E1 & R1 & S1 & C1) (d2 & P2 & E2 & R2 & S2 & C2).
  exists (d2 ++ d1). split; [|split; [|split; [|split]]].
  - rewrite closed_app.
    eapply Permutation_trans; [|exact P1].
    rewrite <- !app_assoc. apply Permutation_app_head.
    rewrite !app_assoc. apply Permutation_app_tail.
    rewrite <- app_assoc. exact P2.
  - subst. apply first_exc_raised.
  - rewrite raised_app. intros H. apply app_eq_nil in H. destruct H as [H1 H2].
    rewrite (R1 H1), (R2 H2). reflexivity.
  - intros H. rewrite (S1 H), (S2 (C1 1 H)). reflexivity.
  - intros c H. apply C2, C1, H.
Qed.

Lemma worker_step_accounted k js exc w r w' t :
  worker_step func k (js, exc) w = (r, w', t) ->
  exists js' exc', r = Ok (js', exc') /\ accounted js js' exc exc' t.
Proof.
  unfold worker_step. cbn [fst snd].
  destruct (nth_error js k) as [[|a rest]|] eqn:En; intros H.
  - inv H. exists js, exc. split; [reflexivity | apply accounted_refl].
  - unfold bind, attempt, emit, ret in H.
    destruct (func a w) as [[ra wa] ta] eqn:Ef.
    pose proof (func_quiet _ _ _ _ _ Ef) as Hq.
    pose proof (closed_nil_raised _ Hq) as Hr.
    destruct ra; inv H.
    + eexists _, _. split; [reflexivity|]. exists [].
      rewrite !closed_app, !raised_app, Hq, Hr. simpl.
      rewrite app_nil_r, first_exc_None_r.
      split; [|split; [|split; [|split]]]; auto.
      * apply (concat_replace_nth js k [a] rest En).
      * intros c. apply (replace_nth_short c js k (a :: rest) rest En).
        simpl. lia.
    + eexists _, _. split; [reflexivity|]. exists rest.
      rewrite !closed_app, !raised_app, Hq, Hr. simpl.
      split; [|split; [|split; [|split]]]; auto.
      * apply (Permutation_trans (l' := (a :: rest) ++ concat (replace_nth k [] js))).
        -- simpl. constructor. apply Permutation_app_comm.
        -- apply (concat_replace_nth js k (a :: rest) []).
           rewrite app_nil_r. exact En.
      * discriminate.
      * intros Hs. rewrite Forall_forall in Hs.
        apply nth_error_In in En. apply Hs in En. simpl in En.
        destruct rest; [reflexivity | simpl in En; lia].
      * intros c. apply (replace_nth_short c js k (a :: rest) [] En).
        simpl. lia.
  - inv H. exists js, exc. split; [reflexivity | apply accounted_refl].
Qed.

Lemma run_sched_accounted sched : forall js exc w r w' t,
  run_sched func sched (js, exc) w = (r, w', t) ->
  exists js' exc', r = Ok (js', exc') /\ accounted js js' exc exc' t.
Proof.
  induction sched as [|k sched IH]; simpl; intros js exc w r w' t H.
  - inv H. exists js, exc. split; [reflexivity | apply accounted_refl].
  - unfold bind in H.
    destruct (worker_step func k (js, exc) w) as [[r1 w1] t1] eqn:E1.
    destruct (worker_step_accounted _ _ _ _ _ _ _ E1)
      as (js1 & exc1 & -> & A1).
    destruct (run_sched func sched (js1, exc1) w1) as [[r2 w2] t2] eqn:E2.
    destruct (IH _ _ _ _ _ _ E2) as (js2 & exc2 & -> & A2).
    inv H. exists js2, exc2. split; [reflexivity|].
    eapply accounted_trans; eauto.
Qed.

(** A chunk run to its end is one chunk emptied. *)
Lemma run_job_accounted j : forall w r w' t,
  run_job func j w = (r, w', t) ->
  exists o, r = Ok o /\ o = hd_error (raised t) /\
    accounted [j] [[]] None o t.
Proof.
  induction j as [|a rest IH]; simpl; intros w r w' t H.
  - inv H. exists None. split; [reflexivity|]. split; [reflexivity|].
    apply accounted_refl.
  - unfold bind, attempt, emit, ret in H.
    destruct (func a w) as [[ra wa] ta] eqn:Ef.
    pose proof (func_quiet _ _ _ _ _ Ef) as Hq.
    pose proof (closed_nil_raised _ Hq) as Hr.
    destruct ra.
    + destruct (run_job func rest wa) as [[r2 w2] t2] eqn:E2.
      destruct (IH _ _ _ _ E2) as (o & -> & Ho & (d & P & E & R & S & C)).
      inv H. eexists. split; [reflexivity|].
      rewrite !raised_app, Hr. simpl. split; [reflexivity|].
      exists d. rewrite !closed_app, !raised_app, Hq, Hr. simpl.
      simpl in P. rewrite app_nil_r in *.
      split; [|split; [|split; [|split]]]; auto.
      * intros Hs. inversion Hs; subst. simpl in *.
        apply R. destruct rest; [|simpl in *; lia].
        simpl in E2. inv E2. reflexivity.
      * intros c _. repeat constructor. simpl. lia.
    + inv H. eexists. split; [reflexivity|].
      rewrite !raised_app, Hr. simpl. split; [reflexivity|].
      exists rest. rewrite !closed_app, !raised_app, Hq, Hr. simpl.
      split; [|split; [|split; [|split]]]; auto.
      * rewrite app_nil_r. apply Permutation_refl.
      * discriminate.
      * intros Hs. inversion Hs; subst. simpl in *.
        destruct rest; [reflexivity | simpl in *; lia].
      * intros c _. repeat constructor. simpl. lia.
Qed.

Lemma drain_accounted js : forall exc w r w' t,
  drain func js exc w = (r, w', t) ->
  exists o, r = Ok o /\
    accounted js (map (fun _ => []) js) exc o t.
Proof.
  induction js as [|j tl IH]; simpl; intros exc w r w' t H.
  - inv H. exists exc. split; [reflexivity | apply accounted_refl].
  - unfold bind in H.
    destruct (run_job func j w) as [[r1 w1] t1] eqn:E1.
    destruct (run_job_accounted _ _ _ _ _ E1)
      as (o1 & -> & Ho1 & (d1 & P1 & _ & R1 & S1 & _)).
    destruct (drain func tl (first_exc exc o1) w1) as [[r2 w2] t2] eqn:E2.
    destruct (IH _ _ _ _ _ E2) as (o2 & -> & (d2 & P2 & E2' & R2 & S2 & C2)).
    inv H. eexists. split; [reflexivity|].
    exists (d1 ++ d2). simpl in P1. rewrite app_nil_r in P1.
    rewrite concat_map_nil in P2. simpl in P2.
    split; [|split; [|split; [|split]]].
    + rewrite closed_app. simpl. rewrite concat_map_nil. simpl.
      apply (Permutation_trans
               (l' := (closed t1 ++ d1) ++ (closed t2 ++ d2))).
      * rewrite <- !app_assoc. apply Permutation_app_head.
        apply Permutation_app_swap_app.
      * apply Permutation_app; assumption.
    + apply first_exc_raised.
    + rewrite raised_app. intros H. apply app_eq_nil in H.
      destruct H as [H1 H2]. rewrite (R1 H1), (R2 H2). reflexivity.
    + intros Hs. inversion Hs; subst.
      rewrite S1 by (constructor; [assumption | constructor]).
      rewrite S2 by assumption. reflexivity.
    + intros c Hc. inversion Hc; subst. constructor; [simpl; lia|].
      apply C2. assumption.
Qed.

(** Every tuple of the batch is accounted for: applied and closed once, or
    given up in a chunk behind an exception; the result is the first
    exception a worker saw, or normal when none saw one. *)
Lemma starmap_accounted pool items sched w r w' t :
  items <> [] ->
  starmap func pool items sched w = (r, w', t) ->
  r = map_result (raised t) /\
  exists d,
    Permutation (closed t ++ d) items /\
    (raised t = [] -> d = []) /\
    (length items <= processes pool * 4 -> d = []).
Proof.
  intros Hne H. unfold starmap in H.
  unfold bind at 1 in H. unfold emit at 1 in H.
  unfold bind at 1 in H.
  assert (Hlen : 0 < length items) by (destruct items; simpl; [congruence|lia]).
  assert (Hc : concat (get_tasks (length items)
                         (chunksize (length items) (processes pool)) items)
               = items).
  { apply concat_get_tasks; [|lia]. apply chunksize_pos. lia. }
  assert (Hsmall : length items <= processes pool * 4 ->
            Forall (fun j : list (list value) => length j <= 1)
              (get_tasks (length items)
                 (chunksize (length items) (processes pool)) items)).
  { intros Hs. eapply Forall_impl; [|apply get_tasks_short].
    intros j Hj. pose proof (chunksize_small _ _ Hs). simpl in *. lia. }
  remember (get_tasks (length items)
              (chunksize (length items) (processes pool)) items) as js0.
  clear Heqjs0.
  destruct (run_sched func sched (js0, None) w) as [[r1 w1] t1] eqn:E1.
  destruct (run_sched_accounted _ _ _ _ _ _ _ E1) as (js1 & exc1 & -> & A1).
  unfold bind in H. cbn [fst snd] in H.
  destruct (drain func js1 exc1 w1) as [[r2 w2] t2] eqn:E2.
  destruct (drain_accounted _ _ _ _ _ _ E2) as (o & -> & A2).
  pose proof (accounted_trans _ _ _ _ _ _ _ _ A1 A2)
    as (d & P & E & R & S & _).
  rewrite concat_map_nil, Hc in P. simpl in P. simpl in E.
  assert (Hres : forall x : res unit,
            x = map_result (raised (t1 ++ t2)) ->
            x = map_result (raised (EvStarmap pool items :: t1 ++ t2)) /\
            exists d0,
              Permutation (closed (EvStarmap pool items :: t1 ++ t2) ++ d0) items /\
              (raised (EvStarmap pool items :: t1 ++ t2) = [] -> d0 = []) /\
              (length items <= processes pool * 4 -> d0 = [])).
  { intros x Hx. split; [exact Hx|]. exists d.
    split; [exact P|]. split; [exact R|]. intros Hs. apply S, Hsmall, Hs. }
  destruct o as [e|]; unfold raise, ret in H; inv H; rewrite app_nil_r;
    apply Hres; destruct (raised (t1 ++ t2)); simpl in *; congruence.
Qed.

End PoolAccounting.

Section PoolEntered.
Variable func : list value -> M unit.
Variable g : list value -> list (list (string * value)).
Hypothesis func_enters : forall a w r w' t,
  func a w = (r, w', t) -> closed t = [] /\ entered t = g a.

Lemma closed_last t e : closed (t ++ [e]) = closed t ++ closed_of e.
Proof. rewrite closed_app. simpl. rewrite app_nil_r. reflexivity. Qed.

Lemma applied_block a (r : res unit) t :
  closed t = [] -> entered t = g a ->
  entered (t ++ [closing a r]) = flat_map g (closed (t ++ [closing a r])).
Proof.
  intros Hc He. rewrite entered_app, closed_app, He, Hc.
  destruct r; simpl; rewrite !app_nil_r; reflexivity.
Qed.

Lemma worker_step_entered k st w r w' t :
  worker_step func k st w = (r, w', t) ->
  entered t = flat_map g (closed t).
Proof.
  unfold worker_step.
  destruct (nth_error (fst st) k) as [[|a rest]|]; intros H;
    try (inv H; reflexivity).
  unfold bind, attempt, emit, ret in H.
  destruct (func a w) as [[ra wa] ta] eqn:Ef.
  destruct (func_enters _ _ _ _ _ Ef) as [Hc He].
  destruct ra; inv H; rewrite ?app_nil_r.
  - apply (applied_block a (Ok tt)); assumption.
  - apply (applied_block a (@Raise unit e)); assumption.
Qed.

Lemma entered_closed_app t1 t2 :
  entered t1 = flat_map g (closed t1) ->
  entered t2 = flat_map g (closed t2) ->
  entered (t1 ++ t2) = flat_map g (closed (t1 ++ t2)).
Proof.
  intros H1 H2. rewrite entered_app, closed_app, flat_map_app, H1, H2.
  reflexivity.
Qed.

Lemma run_sched_entered sched : forall st w r w' t,
  run_sched func sched st w = (r, w', t) ->
  entered t = flat_map g (closed t).
Proof.
  induction sched as [|k sched IH]; simpl; intros st w r w' t H.
  - inv H. reflexivity.
  - unfold bind in H.
    destruct (worker_step func k st w) as [[r1 w1] t1] eqn:E1.
    pose proof (worker_step_entered _ _ _ _ _ _ E1) as H1.
    destruct r1 as [st1|e]; [|inv H; exact H1].
    destruct (run_sched func sched st1 w1) as [[r2 w2] t2] eqn:E2.
    inv H. apply entered_closed_app; [exact H1 | eapply IH; eauto].
Qed.

Lemma run_job_entered j : forall w r w' t,
  run_job func j w = (r, w', t) ->
  entered t = flat_map g (closed t).
Proof.
  induction j as [|a rest IH]; simpl; intros w r w' t H.
  - inv H. reflexivity.
  - unfold bind, attempt, emit, ret in H.
    destruct (func a w) as [[ra wa] ta] eqn:Ef.
    destruct (func_enters _ _ _ _ _ Ef) as [Hc He].
    destruct ra.
    + destruct (run_job func rest wa) as [[r2 w2] t2] eqn:E2.
      inv H. cbn [app].
      assert (E : ta ++ EvReturn a :: t2 = (ta ++ [EvReturn a]) ++ t2)
        by (rewrite <- app_assoc; reflexivity).
      rewrite E.
      apply entered_closed_app; [|eapply IH; eauto].
      apply (applied_block a (Ok tt)); assumption.
    + inv H. rewrite ?app_nil_r.
      apply (applied_block a (@Raise unit e)); assumption.
Qed.

Lemma drain_entered js : forall exc w r w' t,
  drain func js exc w = (r, w', t) ->
  entered t = flat_map g (closed t).
Proof.
  induction js as [|j tl IH]; simpl; intros exc w r w' t H.
  - inv H. reflexivity.
  - unfold bind in H.
    destruct (run_job func j w) as [[r1 w1] t1] eqn:E1.
    pose proof (run_job_entered _ _ _ _ _ E1) as H1.
    destruct r1 as [o|e]; [|inv H; exact H1].
    destruct (drain func tl (first_exc exc o) w1) as [[r2 w2] t2] eqn:E2.
    inv H. apply entered_closed_app; [exact H1 | eapply IH; eauto].
Qed.

(** The bodies entered during a [starmap] are those of the applications it
    closed, in the same order. *)
Lemma starmap_entered pool items sched w r w' t :
  starmap func pool items sched w = (r, w', t) ->
  entered t = flat_map g (closed t).
Proof.
  intros H. unfold starmap in H.
  unfold bind at 1 in H. unfold emit at 1 in H.
  unfold bind at 1 in H.
  match type of H with context [run_sched func sched ?s w] =>
    destruct (run_sched func sched s w) as [[r1 w1] t1] eqn:E1 end.
  pose proof (run_sched_entered _ _ _ _ _ _ E1) as H1.
  destruct r1 as [st1|e]; [|inv H; exact H1].
  unfold bind in H.
  destruct (drain func (fst st1) (snd st1) w1) as [[r2 w2] t2] eqn:E2.
  pose proof (drain_entered _ _ _ _ _ _ E2) as H2.
  destruct r2 as [[e|]|e]; unfold raise, ret in H; inv H;
    rewrite ?app_nil_r;
    change (entered (t1 ++ t2) = flat_map g (closed (t1 ++ t2)));
    apply entered_closed_app; assumption.
Qed.

End PoolEntered.

Section MoreDispatch.
Context `{DB : ManageDB}.
Variable G : uploader_module.

Lemma partial_call_quiet up kw a w r w' t :
  partial_call up kw a w = (r, w', t) -> closed t = [].
Proof.
  unfold partial_call, py_call. intros H.
  destruct (bind_args (params up) a kw) as [env|e].
  - destruct (body up env w) as [rb wb]. inv H. reflexivity.
  - inv H. reflexivity.
Qed.

(** With the store answering and rows wide enough, a cycle is the [SELECT]
    followed, for a non-empty snapshot, by one [starmap] over it. *)
Lemma begin_uploads_dispatch sched client up w rows r w' t :
  db_reachable w = true ->
  tasks w = Some rows ->
  indexable rows ->
  begin_uploads G sched client up w = (r, w', t) ->
  (snapshot_items rows = [] /\ r = Ok tt /\ w' = w /\
   t = [EvExecute CMD_GET_FOLDERS []]) \/
  (snapshot_items rows <> [] /\
   exists ts,
     t = EvExecute CMD_GET_FOLDERS [] :: ts /\
     starmap (partial_call up [("client", client)]) (POOL G)
             (snapshot_items rows) sched w = (r, w', ts)).
Proof.
  intros Hr Ht Hwf H. unfold begin_uploads in H.
  unfold bind at 1 in H.
  rewrite (fetch_processed_ok w rows Hr Ht) in H.
  unfold bind at 1 in H.
  rewrite build_upload_pool_ok in H.
  2:{ intros x Hin. apply filter_In in Hin. apply Hwf. tauto. }
  fold (snapshot_items rows) in H.
  destruct (snapshot_items rows) as [|a rest] eqn:Ei.
  - left. inv H. auto.
  - right. split; [discriminate|].
    match type of H with context [starmap ?f ?p ?i ?s w] =>
      destruct (starmap f p i s w) as [[r2 w2] t2] eqn:E2 end.
    inv H. exists t2. auto.
Qed.

End MoreDispatch.

Section DispatchExtras.
Context `{DB : ManageDB}.
Variable G : uploader_module.

Lemma partial_call_enters up client a w r w' t :
  partial_call up [("client", client)] a w = (r, w', t) ->
  closed t = [] /\ entered t = enters up client a.
Proof.
  unfold partial_call, py_call, enters. intros H.
  destruct (bind_args (params up) a [("client", client)]) as [env|e].
  - destruct (body up env w) as [rb wb]. inv H. auto.
  - inv H. auto.
Qed.

(** The whole account of a cycle that reached the store. *)
Lemma begin_uploads_accounted sched client up w rows r w' t :
  db_reachable w = true ->
  tasks w = Some rows ->
  indexable rows ->
  begin_uploads G sched client up w = (r, w', t) ->
  r = map_result (raised t) /\
  entered t = flat_map (enters up client) (closed t) /\
  exists d,
    Permutation (closed t ++ d) (snapshot_items rows) /\
    (raised t = [] -> d = []) /\
    (length (snapshot_items rows) <= processes (POOL G) * 4 -> d = []).
Proof.
  intros Hr Ht Hwf H.
  destruct (begin_uploads_dispatch G _ _ _ _ _ _ _ _ Hr Ht Hwf H)
    as [(Hi & -> & -> & ->)|(Hne & ts & -> & Hs)].
  - rewrite Hi. simpl. split; [reflexivity|]. split; [reflexivity|].
    exists []. auto.
  - destruct (starmap_accounted _ (partial_call_quiet up _) _ _ _ _ _ _ _ Hne Hs)
      as (Hres & d & P & R & S).
    split; [exact Hres|]. split.
    + apply (starmap_entered _ (enters up client)
               (partial_call_enters up client) _ _ _ _ _ _ _ Hs).
    + exists d. auto.
Qed.




(** X4. Whatever the outcome of a cycle, no task is tried twice and
    nothing but the snapshot is tried: the applications that returned or
    raised, together with some tasks that were not tried, are a
    permutation of the snapshot; tasks are left untried only when an
    application raised. *)
Theorem begin_uploads_never_twice sched client up w rows r w' t :
  db_reachable w = true ->
  tasks w = Some rows ->
  indexable rows ->
  begin_uploads G sched client up w = (r, w', t) ->
  exists untried,
    Permutation (closed t ++ untried) (snapshot_items rows) /\
    (raised t = [] -> untried = []).
Proof.
  intros Hr Ht Hwf H.
  destruct (begin_uploads_accounted _ _ _ _ _ _ _ _ Hr Ht Hwf H)
    as (_ & _ & d & P & R & _).
  exists d. auto.
Qed.




Lemma build_upload_pool_short l : forall w,
  (exists r, In r l /\
     (length r <= TSK_STORE_INDEX \/ length r <= TSK_SHR_INDEX)) ->
  build_upload_pool l w = (Raise IndexError, w, []).
Proof.
  induction l as [|x l IH]; intros w (r & Hin & Hs); [destruct Hin|].
  simpl. unfold bind, tuple_get.
  destruct (nth_error x TSK_STORE_INDEX) as [a|] eqn:Ea; [|reflexivity].
  simpl.
  destruct (nth_error x TSK_SHR_INDEX) as [b|] eqn:Eb; [|reflexivity].
  simpl. rewrite IH; [reflexivity|].
  destruct Hin as [->|Hin]; [|exists r; auto].
  exfalso.
  assert (TSK_STORE_INDEX < length r)
    by (apply nth_error_Some; congruence).
  assert (TSK_SHR_INDEX < length r)
    by (apply nth_error_Some; congruence).
  lia.
Qed.

(** X6. One processed row that is too short for [TSK_STORE_INDEX] or
    [TSK_SHR_INDEX] stops the whole cycle: [begin_uploads] raises
    [IndexError] after the [SELECT], before anything is submitted, also
    for the rows that are wide enough. *)
Theorem begin_uploads_index_error sched client up w rows bad :
  db_reachable w = true ->
  tasks w = Some rows ->
  In bad rows -> is_processed bad = true ->
  length bad <= TSK_STORE_INDEX \/ length bad <= TSK_SHR_INDEX ->
  begin_uploads G sched client up w
  = (Raise IndexError, w, [EvExecute CMD_GET_FOLDERS []]).
Proof.
  intros Hr Ht Hin Hp Hs. unfold begin_uploads.
  unfold bind at 1. rewrite (fetch_processed_ok w rows Hr Ht).
  unfold bind at 1. rewrite build_upload_pool_short; [reflexivity|].
  exists bad. split; [apply filter_In; auto | exact Hs].
Qed.

Lemma no_starmap_submissions t :
  Forall (fun e => match e with EvStarmap _ _ => False | _ => True end) t ->
  submissions t = [].
Proof.
  induction 1 as [|e t He _ IH]; [reflexivity|].
  destruct e; simpl; auto. destruct He.
Qed.

(** What a cycle submits is the snapshot of the table it found. *)
Lemma begin_uploads_submissions sched client up w r w' t :
  begin_uploads G sched client up w = (r, w', t) ->
  submissions t = [] \/
  exists rows,
    db_reachable w = true /\ tasks w = Some rows /\
    snapshot_items rows <> [] /\
    submissions t = [snapshot_items rows].
Proof.
  intros H. unfold begin_uploads in H. unfold bind at 1 in H.
  destruct (db_reachable w) eqn:Hr.
  2:{ rewrite (fetch_processed_unreachable w Hr) in H. inv H. left.
      reflexivity. }
  destruct (tasks w) as [rows|] eqn:Ht.
  2:{ unfold fetch_processed, try_except, bind, with_connect, execute in H.
      rewrite Hr, Ht in H. simpl in H.
      destruct (is_DBException (connect_exit Sqlite3Error));
        inv H; left; reflexivity. }
  rewrite (fetch_processed_ok w rows Hr Ht) in H.
  unfold bind at 1 in H.
  destruct (build_upload_pool (filter is_processed rows) w)
    as [[x wx] tx] eqn:Ex.
  destruct (build_upload_pool_pure (filter is_processed rows) w) as [x' Hx'].
  rewrite Hx' in Ex. inv Ex.
  destruct x as [items|e]; [|inv H; left; reflexivity].
  pose proof (build_upload_pool_result _ _ _ _ _ Hx') as Hi.
  fold (snapshot_items rows) in Hi. subst items.
  destruct (snapshot_items rows) as [|a rest] eqn:Ei;
    [inv H; left; reflexivity|].
  right. exists rows. rewrite Ei.
  split; [reflexivity|]. split; [reflexivity|]. split; [discriminate|].
  match type of H with context [starmap ?f ?p ?i ?s wx] =>
    destruct (starmap f p i s wx) as [[r2 w2] t2] eqn:E2 end.
  inv H. unfold starmap in E2.
  unfold bind at 1 in E2. unfold emit at 1 in E2. unfold bind at 1 in E2.
  set (P := fun e : event =>
              match e with EvStarmap _ _ => False | _ => True end).
  assert (Hf : forall a w0 r0 w0' t0,
            partial_call up [("client", client)] a w0 = (r0, w0', t0) ->
            True -> True /\ Forall P t0 /\ P (closing a r0)).
  { intros a0 w0 r0 w0' t0 Hc _. split; [exact Logic.I|].
    unfold partial_call, py_call in Hc.
    destruct (bind_args (params up) a0 [("client", client)]) as [env|e].
    - destruct (body up env w0) as [rb wb]. inv Hc.
      split; [repeat constructor | destruct r0; exact Logic.I].
    - inv Hc. split; [repeat constructor | exact Logic.I]. }
  match type of E2 with context [run_sched ?f sched ?s wx] =>
    destruct (run_sched f sched s wx) as [[r1 w1] t1] eqn:E1 end.
  destruct (run_sched_inv _ (fun _ => True) P Hf _ _ _ _ _ _ E1 Logic.I)
    as [_ HP1].
  destruct r1 as [st1|e].
  - unfold bind in E2.
    match type of E2 with context [drain ?f ?a ?b w1] =>
      destruct (drain f a b w1) as [[r3 w3] t3] eqn:E3 end.
    destruct (drain_inv _ (fun _ => True) P Hf _ _ _ _ _ _ E3 Logic.I)
      as [_ HP3].
    assert (Hsub : submissions (t1 ++ t3) = []).
    { rewrite submissions_app, (no_starmap_submissions _ HP1),
        (no_starmap_submissions _ HP3). reflexivity. }
    destruct r3 as [[e|]|e]; unfold raise, ret in E2; inv E2;
      rewrite ?app_nil_r; simpl; rewrite Hsub; reflexivity.
  - inv E2. simpl. rewrite (no_starmap_submissions _ HP1). reflexivity.
Qed.

End DispatchExtras.

Section RemoveExtras.
Context `{DB : ManageDB}.

Lemma filter_idem {X} (p : X -> bool) l : filter p (filter p l) = filter p l.
Proof.
  induction l as [|x l IH]; simpl; [reflexivity|].
  destruct (p x) eqn:E; simpl; rewrite ?E, IH; reflexivity.
Qed.

Lemma filter_comm {X} (p q : X -> bool) l :
  filter p (filter q l) = filter q (filter p l).
Proof.
  induction l as [|x l IH]; simpl; [reflexivity|].
  destruct (p x) eqn:Ep, (q x) eqn:Eq; simpl; rewrite ?Ep, ?Eq, IH;
    reflexivity.
Qed.

Lemma _remove_row_gone f w w' t :
  _remove f w = (Ok tt, w', t) ->
  forall r, In r (rows_of w') -> col store_path_col r <> VStr f.
Proof.
  intros H.
  destruct (_remove_completed _ _ _ _ H) as (rows & Hr & Ht & Hd).
  rewrite (_remove_completes f w rows Hr Ht Hd) in H. inv H.
  unfold rows_of. simpl. intros r Hin Hc.
  apply filter_In in Hin. destruct Hin as [_ Hn].
  apply has_store_path_iff in Hc. rewrite Hc in Hn. discriminate.
Qed.

(** X9. [_remove] is not atomic: when the store answers but the path is
    missing or is a regular file, the rows of [f] are deleted all the same,
    then [rmtree] raises and the file system is left as it was. *)
Theorem remove_not_a_directory f w rows :
  db_reachable w = true ->
  tasks w = Some rows ->
  fs_lookup f (fs w) <> Some Dir ->
  exists e,
    (e = FileNotFoundError \/ e = NotADirectoryError) /\
    _remove f w
    = (Raise e,
       set_tasks (filter (fun r => negb (has_store_path (VStr f) r)) rows) w,
       [EvExecute CMD_RM_TASK [VStr f]; EvRmtree f]).
Proof.
  intros Hr Ht Hd.
  unfold _remove, bind, with_connect, execute, rmtree.
  rewrite Hr, Ht. simpl.
  destruct (fs_lookup f (fs w)) as [[|]|].
  - exists NotADirectoryError. auto.
  - congruence.
  - exists FileNotFoundError. auto.
Qed.

(** X10. [_remove] cannot be repeated: after a completed [_remove f], a
    second [_remove f] raises [FileNotFoundError] and changes nothing. *)
Theorem remove_twice f w w1 t1 :
  _remove f w = (Ok tt, w1, t1) ->
  _remove f w1
  = (Raise FileNotFoundError, w1,
     [EvExecute CMD_RM_TASK [VStr f]; EvRmtree f]).
Proof.
  intros H.
  destruct (_remove_completed _ _ _ _ H) as (rows & Hr & Ht & Hd).
  rewrite (_remove_completes f w rows Hr Ht Hd) in H. inv H.
  unfold _remove, bind, with_connect, execute, rmtree. simpl.
  rewrite fs_lookup_rmtree, within_refl. unfold set_tasks. simpl.
  rewrite filter_idem. reflexivity.
Qed.

(** X11. Removing two folders that do not contain each other gives the
    same store and file system in either order. *)
Theorem remove_commutes f g w rows :
  db_reachable w = true ->
  tasks w = Some rows ->
  fs_lookup f (fs w) = Some Dir ->
  fs_lookup g (fs w) = Some Dir ->
  within f g = false ->
  within g f = false ->
  exists w',
    bind (_remove f) (fun _ => _remove g) w
    = (Ok tt, w',
       [EvExecute CMD_RM_TASK [VStr f]; EvRmtree f;
        EvExecute CMD_RM_TASK [VStr g]; EvRmtree g]) /\
    bind (_remove g) (fun _ => _remove f) w
    = (Ok tt, w',
       [EvExecute CMD_RM_TASK [VStr g]; EvRmtree g;
        EvExecute CMD_RM_TASK [VStr f]; EvRmtree f]).
Proof.
  intros Hr Ht Hf Hg Hfg Hgf.
  eexists. unfold bind.
  rewrite (_remove_completes f w rows Hr Ht Hf).
  rewrite (_remove_completes g w rows Hr Ht Hg).
  erewrite (_remove_completes g); [|reflexivity|reflexivity|].
  2:{ simpl. rewrite fs_lookup_rmtree, Hfg. exact Hg. }
  erewrite (_remove_completes f); [|reflexivity|reflexivity|].
  2:{ simpl. rewrite fs_lookup_rmtree, Hgf. exact Hf. }
  simpl. split; [reflexivity|].
  rewrite (filter_comm (fun r => negb (has_store_path (VStr f) r))).
  rewrite (filter_comm (fun e => negb (within f (fst e)))).
  reflexivity.
Qed.

(** X12. Whatever its outcome, [_remove] only takes away: every task the
    store holds afterwards was there before with the same status, every
    path that exists afterwards existed before, and the reachability of
    the store is untouched. *)
Theorem remove_only_takes_away f w r w' t :
  _remove f w = (r, w', t) ->
  statuses_kept w w' /\ incl (fs w') (fs w) /\
  db_reachable w' = db_reachable w.
Proof.
  unfold _remove, bind, with_connect, execute, rmtree.
  destruct (db_reachable w) eqn:Hr.
  2:{ intros H; inv H. repeat split; auto using incl_refl.
      unfold statuses_kept. apply incl_refl. }
  destruct (tasks w) as [rows|] eqn:Ht; simpl.
  2:{ intros H; inv H. repeat split; auto using incl_refl.
      unfold statuses_kept. apply incl_refl. }
  assert (Hk : forall x,
            statuses_kept w
              (set_fs x (set_tasks
                 (filter (fun r => negb (has_store_path (VStr f) r)) rows) w))).
  { intros x. unfold statuses_kept, task_statuses, rows_of. simpl.
    rewrite Ht. apply incl_map. apply incl_filter. }
  assert (Hk0 : statuses_kept w
              (set_tasks
                 (filter (fun r => negb (has_store_path (VStr f) r)) rows) w)).
  { unfold statuses_kept, task_statuses, rows_of. simpl.
    rewrite Ht. apply incl_map. apply incl_filter. }
  destruct (fs_lookup f (fs w)) as [[|]|]; intros H; inv H; simpl;
    repeat split; auto using incl_refl, incl_filter.
Qed.

(** X13. The statement [CMD_SET_UPLOADING], which no code executes, would
    do what the dispatcher lacks: once it has run for a store path, the
    next [CMD_GET_FOLDERS] returns the former snapshot without the rows of
    that path. *)
Theorem set_uploading_leaves_snapshot p w rows :
  tasks w = Some rows ->
  (forall r, In r rows -> status_col < length r) ->
  exists w1,
    bind (execute CMD_SET_UPLOADING [p])
         (fun _ => execute CMD_GET_FOLDERS []) w
    = (Ok (filter (fun r => negb (has_store_path p r))
                  (filter is_processed rows)),
       w1,
       [EvExecute CMD_SET_UPLOADING [p]; EvExecute CMD_GET_FOLDERS []]).
Proof.
  intros Ht Hwf. eexists.
  unfold bind, execute. rewrite Ht. simpl.
  f_equal. f_equal. f_equal.
  clear Ht. induction rows as [|r rows IH]; [reflexivity|].
  simpl. rewrite IH by (intros; apply Hwf; simpl; auto).
  destruct (has_store_path p r) eqn:Ep.
  - assert (Hu : is_processed (set_nth status_col (VStr "uploading") r) = false).
    { unfold is_processed, col.
      assert (Hl : status_col < length r) by (apply Hwf; simpl; auto).
      clear - Hl. revert r Hl. generalize status_col as i.
      induction i as [|i IHi]; intros [|x r] Hl; simpl in *;
        try lia; try reflexivity.
      apply IHi. lia. }
    rewrite Hu. destruct (is_processed r); simpl; rewrite ?Ep; reflexivity.
  - destruct (is_processed r); simpl; rewrite ?Ep; reflexivity.
Qed.

End RemoveExtras.

Section CycleExtras.
Context `{DB : ManageDB}.
Variable G : uploader_module.

Lemma begin_uploads_submits sched client up w rows r w' t :
  db_reachable w = true ->
  tasks w = Some rows ->
  indexable rows ->
  snapshot_items rows <> [] ->
  begin_uploads G sched client up w = (r, w', t) ->
  submissions t = [snapshot_items rows].
Proof.
  intros Hr Ht Hwf Hne H.
  destruct (begin_uploads_submissions G _ _ _ _ _ _ _ H)
    as [Hs|(rows' & _ & Ht' & _ & Hs)].
  - exfalso.
    destruct (begin_uploads_dispatch G _ _ _ _ _ _ _ _ Hr Ht Hwf H)
      as [(Hi & _)|(_ & ts & -> & Hst)]; [contradiction|].
    unfold starmap in Hst. unfold bind at 1 in Hst. unfold emit at 1 in Hst.
    match type of Hst with context [bind ?m ?f w] =>
      destruct (bind m f w) as [[r2 w2] t2] end.
    inv Hst. simpl in Hs. discriminate.
  - rewrite Ht in Ht'. inv Ht'. exact Hs.
Qed.

(** X7. Nothing in a cycle takes a task out of the next snapshot: with
    upload functions that leave the table alone, every firing of the job
    submits the same snapshot again, as many times as the job fires. *)
Theorem firings_submit_again fl w rows w' t :
  db_reachable w = true ->
  tasks w = Some rows ->
  indexable rows ->
  snapshot_items rows <> [] ->
  (forall f, In f fl -> forall env w0,
     db_reachable (snd (body (f_up_func f) env w0)) = db_reachable w0 /\
     tasks (snd (body (f_up_func f) env w0)) = tasks w0) ->
  run_firings G fl w = (w', t) ->
  submissions t = repeat (snapshot_items rows) (length fl) /\
  tasks w' = Some rows.
Proof.
  intros Hr Ht Hwf Hne.
  revert w w' t Hr Ht.
  induction fl as [|f fl IH]; simpl; intros w w' t Hr Ht Hb H.
  - inv H. auto.
  - destruct (begin_uploads G (f_sched f) (f_client f) (f_up_func f) w)
      as [[r1 w1] t1] eqn:E1.
    destruct (run_firings G fl w1) as [w2 t2] eqn:E2.
    inv H.
    destruct (begin_uploads_inv G
                (fun x => db_reachable x = true /\ tasks x = Some rows)
                (f_sched f) (f_client f) (f_up_func f))
      with (w := w) (r := r1) (w' := w1) (t := t1) as [[Hr1 Ht1] _]; auto.
    { intros env w0 [H1 H2].
      destruct (Hb f (or_introl eq_refl) env w0) as [H3 H4].
      rewrite H3, H4. auto. }
    destruct (IH w1 w' t2 Hr1 Ht1) as [Hs2 Ht2]; auto.
    rewrite submissions_app, Hs2,
      (begin_uploads_submits _ _ _ _ _ _ _ _ Hr Ht Hwf Hne E1).
    auto.
Qed.

(** X8. A task that [_remove] has taken away is not dispatched again: in
    the cycle that follows a completed [_remove f], no submitted task has
    [f] as its store path. *)
Theorem removed_task_not_dispatched f sched client up w w1 t0 r w2 t :
  indices_match ->
  _remove f w = (Ok tt, w1, t0) ->
  begin_uploads G sched client up w1 = (r, w2, t) ->
  forall items a,
    In items (submissions t) -> In a items -> nth 0 a VNone <> VStr f.
Proof.
  intros [Hs _] Hrm H items a Hin Ha.
  destruct (begin_uploads_submissions G _ _ _ _ _ _ _ H)
    as [E|(rows1 & _ & Ht1 & _ & E)]; rewrite E in Hin; [destruct Hin|].
  destruct Hin as [<-|[]].
  unfold snapshot_items in Ha. apply in_map_iff in Ha.
  destruct Ha as (x & <- & Hx). apply filter_In in Hx. destruct Hx as [Hx _].
  simpl. rewrite Hs.
  pose proof (_remove_row_gone f w w1 t0 Hrm) as Hrow.
  apply Hrow. unfold rows_of. rewrite Ht1. exact Hx.
Qed.

End CycleExtras.

Section ChannelsExtras.
Context `{DB : ManageDB}.

(** X14. While the store cannot be reached, [load_channels_sharelist]
    returns normally with a warning and the error logged; nothing is
    inserted, the world is unchanged, and the data is not even looked into,
    so a file without the key ["channels"] goes unnoticed. *)
Theorem load_channels_store_unreachable data_channels insert_channels w :
  db_reachable w = false ->
  load_channels_sharelist data_channels insert_channels w
  = (Ok tt, w,
     [EvLog WARNING (Msg "Data addition failed");
      EvLog ERROR (MsgExn DBException)]).
Proof.
  intros Hr. unfold load_channels_sharelist, try_except, with_connect.
  rewrite Hr. reflexivity.
Qed.

(** X15. [load_channels_sharelist] never lets a [DBException] out, whatever
    the insertion does; an exception it does raise comes out of the [with]
    block of a store that was reached. *)
Theorem load_channels_never_DBException data_channels insert_channels
    w r w' t :
  load_channels_sharelist data_channels insert_channels w = (r, w', t) ->
  r <> Raise DBException /\
  (forall e, r = Raise e ->
     db_reachable w = true /\ exists e0, e = connect_exit e0).
Proof.
  unfold load_channels_sharelist, try_except, with_connect,
    LOG_warning, LOG_error, bind, emit.
  destruct (db_reachable w).
  - destruct (match data_channels with
              | Ok channels => insert_channels channels
              | Raise e => raise e
              end w) as [[rb wb] tb].
    destruct rb as [u|e0].
    + intros H; inv H. split; [discriminate|]. intros e He. discriminate.
    + destruct (is_DBException (connect_exit e0)) eqn:Ed; intros H; inv H.
      * split; [discriminate|]. intros e He. discriminate.
      * split.
        -- intros Hc. inv Hc. rewrite H0 in Ed. discriminate.
        -- intros e He. inv He. split; [reflexivity|]. exists e0. reflexivity.
  - simpl. intros H; inv H. split; [discriminate|]. intros e He.
    discriminate.
Qed.

End ChannelsExtras.

Section InitExtras.
Import UploaderInit.
Context `{DB : ManageDB}.

(** X16. A configuration without ["start_time"] or ["repetition"] ends the
    construction of an [Uploader] with [KeyError] for the first missing
    key, ["start_time"] when it is missing and ["repetition"] otherwise: by
    then the client has been obtained and the debug line logged, but the
    scheduler is never asked to add the job. *)
Theorem init_missing_key config c up add :
  assoc "start_time" config = None \/ assoc "repetition" config = None ->
  Uploader_init (Done config) (Done c) up add
  = (Failed (KeyError (match assoc "start_time" config with
                       | None => "start_time"
                       | Some _ => "repetition"
                       end)),
     [GotConfig; GotClient;
      LogDebug "Adding %s default job to scheduler..." "run_uploader"]).
Proof.
  intros Hm. unfold Uploader_init, _add_to_scheduler. simpl.
  unfold subscript.
  destruct (assoc "start_time" config) as [s|] eqn:Es; [|reflexivity].
  destruct Hm as [Hm|Hm]; [discriminate|].
  rewrite Hm. reflexivity.
Qed.

(** X17. However the construction of an [Uploader] ends, the scheduler is
    asked for at most one job, named ["run_uploader"], with the start time
    and repetition of the configuration and, as arguments, the client that
    [_get_client] gave during the construction and the instance's
    [_upload]; firing it is [begin_uploads] on these two. The construction
    succeeds exactly when that one job was asked for and accepted. *)
Theorem init_registers_one_job G sched gc cl up add o t :
  Uploader_init gc cl up add = (o, t) ->
  length (registrations t) <= 1 /\
  (forall r, In r (registrations t) ->
     exists config c start rep,
       gc = Done config /\ cl = Done c /\
       assoc "start_time" config = Some start /\
       assoc "repetition" config = Some rep /\
       r = mkReg Begin_uploads "run_uploader" start rep c up /\
       fire G sched r = begin_uploads G sched c up) /\
  (o = Done tt <->
   exists r, registrations t = [r] /\ add r = None).
Proof.
  unfold Uploader_init, _add_to_scheduler.
  destruct gc as [config|f].
  2:{ intros H; inv H. simpl. split; [lia|]. split; [intros r []|].
      split; [discriminate|]. intros (r & Hr & _). discriminate. }
  destruct cl as [c|f].
  2:{ intros H; inv H. simpl. split; [lia|]. split; [intros r []|].
      split; [discriminate|]. intros (r & Hr & _). discriminate. }
  simpl. unfold subscript.
  destruct (assoc "start_time" config) as [start|] eqn:Es.
  2:{ intros H; inv H. simpl. split; [lia|]. split; [intros r []|].
      split; [discriminate|]. intros (r & Hr & _). discriminate. }
  destruct (assoc "repetition" config) as [rep|] eqn:Er.
  2:{ intros H; inv H. simpl. split; [lia|]. split; [intros r []|].
      split; [discriminate|]. intros (r & Hr & _). discriminate. }
  destruct (add (mkReg Begin_uploads "run_uploader" start rep c up))
    as [e|] eqn:Ea; intros H; inv H; simpl.
  - split; [lia|]. split.
    + intros r [<-|[]]. exists config, c, start, rep. repeat split; auto.
    + split; [discriminate|]. intros (r & Hr & Hn). inv Hr. congruence.
  - split; [lia|]. split.
    + intros r [<-|[]]. exists config, c, start, rep. repeat split; auto.
    + split; [|reflexivity]. intros _. eexists. split; [reflexivity|exact Ea].
Qed.

End InitExtras.

Section GuardExtras.
Import NephosMain.

(** X18. The guard handles [SingleInstanceException] only: any other
    exception of [SingleInstance()] leaves the module unhandled, with
    nothing logged and no [sys.exit], and the class [Nephos] is not
    defined either. *)
Theorem guard_other_exception_uncaught e client_code :
  e <> SingleInstanceException ->
  run_process (Raise e) client_code
  = (Uncaught e, imports ++ [GetLogger; AcquireLock]).
Proof.
  intros He. unfold run_process, load_nephos.
  destruct e; try reflexivity. congruence.
Qed.

End GuardExtras.

(** * The further properties at the example installation *)




Lemma begin_uploads_never_twice_witness :
  exists t untried,
    @begin_uploads Example.db Example.G1 [] Example.client
      (Example.upload_raising_on "/rec/1") Example.busy
    = (Raise (Other 1), Example.busy, t) /\
    Permutation (closed t ++ untried) MoreExample.busy_items.
Proof.
  assert (Hidx : @indexable Example.db
                   (map Example.processed_row
                      ["/rec/1"; "/rec/2"; "/rec/3"; "/rec/4"; "/rec/5"])).
  { intros r [<-|[<-|[<-|[<-|[<-|[]]]]]]; simpl; lia. }
  destruct (@begin_uploads_never_twice Example.db Example.G1 []
              Example.client (Example.upload_raising_on "/rec/1")
              Example.busy
              (map Example.processed_row
                 ["/rec/1"; "/rec/2"; "/rec/3"; "/rec/4"; "/rec/5"])
              (Raise (Other 1)) Example.busy _ eq_refl eq_refl Hidx eq_refl)
    as (untried & P & _).
  eexists _, untried. split; [reflexivity | exact P].
Defined.


Lemma begin_uploads_index_error_witness :
  @begin_uploads MoreExample.db_off Example.G [] Example.client
    Example.upload_client_last Example.world
  = (Raise IndexError, Example.world, [EvExecute CMD_GET_FOLDERS []]).
Proof.
  apply (@begin_uploads_index_error MoreExample.db_off Example.G []
           Example.client Example.upload_client_last Example.world
           [Example.row_a; Example.row_b] Example.row_a).
  - reflexivity.
  - reflexivity.
  - simpl. auto.
  - reflexivity.
  - right. simpl. lia.
Defined.

Lemma firings_submit_again_witness :
  exists w' t,
    @run_firings Example.db Example.G MoreExample.two_firings Example.world
    = (w', t) /\
    submissions t = [MoreExample.items_a; MoreExample.items_a].
Proof.
  assert (Hidx : @indexable Example.db [Example.row_a; Example.row_b]).
  { intros r [<-|[<-|[]]]; simpl; lia. }
  assert (Hne : @snapshot_items Example.db [Example.row_a; Example.row_b]
                <> []).
  { simpl. discriminate. }
  assert (Hb : forall f, In f MoreExample.two_firings -> forall env w0,
             db_reachable (snd (body (f_up_func f) env w0)) = db_reachable w0 /\
             tasks (snd (body (f_up_func f) env w0)) = tasks w0).
  { intros f [<-|[<-|[]]] env w0; simpl; auto. }
  eexists _, _. split; [reflexivity|].
  apply (@firings_submit_again Example.db Example.G MoreExample.two_firings
           Example.world [Example.row_a; Example.row_b] _ _
           eq_refl eq_refl Hidx Hne Hb eq_refl).
Defined.

Lemma removed_task_not_dispatched_witness :
  nth 0 [VStr "/rec/b"; VStr "z"] VNone <> VStr "/rec/b/x".
Proof.
  apply (@removed_task_not_dispatched Example.db Example.G "/rec/b/x" []
           Example.client Example.upload_client_last
           (mkWorld true
              (Some [[VStr "/rec/b/x"; VStr "q"; VStr "processed"];
                     [VStr "/rec/b"; VStr "z"; VStr "processed"]])
              [("/rec/b", Dir); ("/rec/b/x", Dir)])
           _ _ _ _ _ (conj eq_refl eq_refl) eq_refl eq_refl
           [[VStr "/rec/b"; VStr "z"]] [VStr "/rec/b"; VStr "z"]).
  - simpl. auto.
  - simpl. auto.
Defined.

Lemma remove_not_a_directory_witness :
  exists e,
    (e = FileNotFoundError \/ e = NotADirectoryError) /\
    @_remove Example.db "/rec/a/f.mp4" Example.world
    = (Raise e,
       set_tasks [Example.row_a; Example.row_b] Example.world,
       [EvExecute CMD_RM_TASK [VStr "/rec/a/f.mp4"]; EvRmtree "/rec/a/f.mp4"]).
Proof.
  apply (@remove_not_a_directory Example.db "/rec/a/f.mp4" Example.world
           [Example.row_a; Example.row_b] eq_refl eq_refl).
  simpl. discriminate.
Defined.

Lemma remove_twice_witness :
  exists w1,
    @_remove Example.db "/rec/a" Example.world
    = (Ok tt, w1, [EvExecute CMD_RM_TASK [VStr "/rec/a"]; EvRmtree "/rec/a"]) /\
    @_remove Example.db "/rec/a" w1
    = (Raise FileNotFoundError, w1,
       [EvExecute CMD_RM_TASK [VStr "/rec/a"]; EvRmtree "/rec/a"]).
Proof.
  eexists. split; [reflexivity|].
  apply (@remove_twice Example.db "/rec/a" Example.world _ _ eq_refl).
Defined.

Lemma remove_commutes_witness :
  exists w',
    bind (@_remove Example.db "/rec/a") (fun _ => @_remove Example.db "/rec/b")
         Example.world
    = (Ok tt, w',
       [EvExecute CMD_RM_TASK [VStr "/rec/a"]; EvRmtree "/rec/a";
        EvExecute CMD_RM_TASK [VStr "/rec/b"]; EvRmtree "/rec/b"]) /\
    bind (@_remove Example.db "/rec/b") (fun _ => @_remove Example.db "/rec/a")
         Example.world
    = (Ok tt, w',
       [EvExecute CMD_RM_TASK [VStr "/rec/b"]; EvRmtree "/rec/b";
        EvExecute CMD_RM_TASK [VStr "/rec/a"]; EvRmtree "/rec/a"]).
Proof.
  apply (@remove_commutes Example.db "/rec/a" "/rec/b" Example.world
           [Example.row_a; Example.row_b]); reflexivity.
Defined.

Lemma remove_only_takes_away_witness :
  exists w',
    @_remove Example.db "/rec/a" Example.world
    = (Ok tt, w', [EvExecute CMD_RM_TASK [VStr "/rec/a"]; EvRmtree "/rec/a"]) /\
    @statuses_kept Example.db Example.world w' /\
    incl (fs w') (fs Example.world) /\
    db_reachable w' = db_reachable Example.world.
Proof.
  eexists. split; [reflexivity|].
  apply (@remove_only_takes_away Example.db "/rec/a" Example.world
           _ _ _ eq_refl).
Defined.

Lemma set_uploading_leaves_snapshot_witness :
  exists w1,
    bind (@execute Example.db CMD_SET_UPLOADING [VStr "/rec/a"])
         (fun _ => @execute Example.db CMD_GET_FOLDERS []) Example.world
    = (Ok [], w1,
       [EvExecute CMD_SET_UPLOADING [VStr "/rec/a"];
        EvExecute CMD_GET_FOLDERS []]).
Proof.
  apply (@set_uploading_leaves_snapshot Example.db (VStr "/rec/a")
           Example.world [Example.row_a; Example.row_b] eq_refl).
  intros r [<-|[<-|[]]]; simpl; lia.
Defined.

Lemma load_channels_store_unreachable_witness :
  @load_channels_sharelist Example.db (Raise (Other 0))
    MoreExample.insert_fails Example.offline
  = (Ok tt, Example.offline,
     [EvLog WARNING (Msg "Data addition failed");
      EvLog ERROR (MsgExn DBException)]).
Proof.
  apply (@load_channels_store_unreachable Example.db). reflexivity.
Defined.

Lemma load_channels_never_DBException_witness :
  @load_channels_sharelist Example.db (Ok VNone) MoreExample.insert_fails
    Example.world
  = (Raise Sqlite3Error, Example.world, []) /\
  Raise Sqlite3Error <> @Raise unit DBException.
Proof.
  split; [reflexivity|].
  apply (@load_channels_never_DBException Example.db (Ok VNone)
           MoreExample.insert_fails Example.world _ _ _ eq_refl).
Defined.

Lemma init_missing_key_witness :
  UploaderInit.Uploader_init
    (UploaderInit.Done []) (UploaderInit.Done Example.client) _upload
    MoreExample.accept_all
  = (UploaderInit.Failed (UploaderInit.KeyError "start_time"),
     [UploaderInit.GotConfig; UploaderInit.GotClient;
      UploaderInit.LogDebug "Adding %s default job to scheduler..."
                            "run_uploader"]) /\
  UploaderInit.Uploader_init
    (UploaderInit.Done MoreExample.config_no_repetition)
    (UploaderInit.Done Example.client) _upload MoreExample.accept_all
  = (UploaderInit.Failed (UploaderInit.KeyError "repetition"),
     [UploaderInit.GotConfig; UploaderInit.GotClient;
      UploaderInit.LogDebug "Adding %s default job to scheduler..."
                            "run_uploader"]).
Proof.
  split.
  - apply (@init_missing_key [] Example.client _upload
             MoreExample.accept_all).
    left. reflexivity.
  - apply (@init_missing_key MoreExample.config_no_repetition Example.client
             _upload MoreExample.accept_all).
    right. reflexivity.
Defined.

Lemma init_registers_one_job_witness :
  exists r,
    UploaderInit.registrations
      (snd (UploaderInit.Uploader_init
              (UploaderInit.Done MoreExample.config)
              (UploaderInit.Done Example.client) _upload
              MoreExample.accept_all))
    = [r] /\
    MoreExample.accept_all r = None.
Proof.
  destruct (@init_registers_one_job Example.db Example.G []
              (UploaderInit.Done MoreExample.config)
              (UploaderInit.Done Example.client) _upload
              MoreExample.accept_all _ _ eq_refl) as (_ & _ & [H _]).
  apply H. reflexivity.
Defined.

Lemma guard_other_exception_uncaught_witness :
  NephosMain.run_process (Raise ValueError)
    (fun _ => NephosMain.Nephos_init false)
  = (NephosMain.Uncaught ValueError,
     NephosMain.imports ++ [NephosMain.GetLogger; NephosMain.AcquireLock]).
Proof.
  apply (guard_other_exception_uncaught ValueError). discriminate.
Defined.

(** * What a cycle submits, in full *)

Lemma called_app t1 t2 : called (t1 ++ t2) = called t1 ++ called t2.
Proof. apply flat_map_app. Qed.

Lemma submitted_app t1 t2 :
  submitted (t1 ++ t2) = submitted t1 ++ submitted t2.
Proof. apply flat_map_app. Qed.

Lemma worker_events_submit_nothing client t :
  Forall (worker_event client) t -> submitted t = [].
Proof.
  induction 1 as [|e t He _ IH]; [reflexivity|].
  destruct e; simpl in *; auto; destruct He.
Qed.

Section PoolCalls.
Variable func : list value -> M unit.
Hypothesis func_calls : forall a w r w' t,
  func a w = (r, w', t) -> closed t = [] /\ called t = [a].

Lemma called_block a (r : res unit) t :
  closed t = [] -> called t = [a] ->
  called (t ++ [closing a r]) = closed (t ++ [closing a r]).
Proof.
  intros Hc Ha. rewrite called_app, closed_app, Ha, Hc.
  destruct r; reflexivity.
Qed.

Lemma called_closed_app t1 t2 :
  called t1 = closed t1 -> called t2 = closed t2 ->
  called (t1 ++ t2) = closed (t1 ++ t2).
Proof.
  intros H1 H2. rewrite called_app, closed_app, H1, H2. reflexivity.
Qed.

Lemma worker_step_called k st w r w' t :
  worker_step func k st w = (r, w', t) -> called t = closed t.
Proof.
  unfold worker_step.
  destruct (nth_error (fst st) k) as [[|a rest]|]; intros H;
    try (inv H; reflexivity).
  unfold bind, attempt, emit, ret in H.
  destruct (func a w) as [[ra wa] ta] eqn:Ef.
  destruct (func_calls _ _ _ _ _ Ef) as [Hc Ha].
  destruct ra; inv H; rewrite ?app_nil_r.
  - apply (called_block a (Ok tt)); assumption.
  - apply (called_block a (@Raise unit e)); assumption.
Qed.

Lemma run_sched_called sched : forall st w r w' t,
  run_sched func sched st w = (r, w', t) -> called t = closed t.
Proof.
  induction sched as [|k sched IH]; simpl; intros st w r w' t H.
  - inv H. reflexivity.
  - unfold bind in H.
    destruct (worker_step func k st w) as [[r1 w1] t1] eqn:E1.
    pose proof (worker_step_called _ _ _ _ _ _ E1) as H1.
    destruct r1 as [st1|e]; [|inv H; exact H1].
    destruct (run_sched func sched st1 w1) as [[r2 w2] t2] eqn:E2.
    inv H. apply called_closed_app; [exact H1 | eapply IH; eauto].
Qed.

Lemma run_job_called j : forall w r w' t,
  run_job func j w = (r, w', t) -> called t = closed t.
Proof.
  induction j as [|a rest IH]; simpl; intros w r w' t H.
  - inv H. reflexivity.
  - unfold bind, attempt, emit, ret in H.
    destruct (func a w) as [[ra wa] ta] eqn:Ef.
    destruct (func_calls _ _ _ _ _ Ef) as [Hc Ha].
    destruct ra.
    + destruct (run_job func rest wa) as [[r2 w2] t2] eqn:E2.
      inv H. cbn [app].
      assert (E : ta ++ EvReturn a :: t2 = (ta ++ [EvReturn a]) ++ t2)
        by (rewrite <- app_assoc; reflexivity).
      rewrite E.
      apply called_closed_app; [|eapply IH; eauto].
      apply (called_block a (Ok tt)); assumption.
    + inv H. rewrite ?app_nil_r.
      apply (called_block a (@Raise unit e)); assumption.
Qed.

Lemma drain_called js : forall exc w r w' t,
  drain func js exc w = (r, w', t) -> called t = closed t.
Proof.
  induction js as [|j tl IH]; simpl; intros exc w r w' t H.
  - inv H. reflexivity.
  - unfold bind in H.
    destruct (run_job func j w) as [[r1 w1] t1] eqn:E1.
    pose proof (run_job_called _ _ _ _ _ E1) as H1.
    destruct r1 as [o|e]; [|inv H; exact H1].
    destruct (drain func tl (first_exc exc o) w1) as [[r2 w2] t2] eqn:E2.
    inv H. apply called_closed_app; [exact H1 | eapply IH; eauto].
Qed.

(** The calls made during a [starmap] are the applications it closed. *)
Lemma starmap_called pool items sched w r w' t :
  starmap func pool items sched w = (r, w', t) -> called t = closed t.
Proof.
  intros H. unfold starmap in H.
  unfold bind at 1 in H. unfold emit at 1 in H.
  unfold bind at 1 in H.
  match type of H with context [run_sched func sched ?s w] =>
    destruct (run_sched func sched s w) as [[r1 w1] t1] eqn:E1 end.
  pose proof (run_sched_called _ _ _ _ _ _ E1) as H1.
  destruct r1 as [st1|e]; [|inv H; exact H1].
  unfold bind in H.
  destruct (drain func (fst st1) (snd st1) w1) as [[r2 w2] t2] eqn:E2.
  pose proof (drain_called _ _ _ _ _ _ E2) as H2.
  destruct r2 as [[e|]|e]; unfold raise, ret in H; inv H;
    rewrite ?app_nil_r;
    change (called (t1 ++ t2) = closed (t1 ++ t2));
    apply called_closed_app; assumption.
Qed.

End PoolCalls.

Section PoolTail.
Variable func : list value -> M unit.
Variable P : event -> Prop.
Hypothesis func_P : forall a w r w' t,
  func a w = (r, w', t) -> Forall P t /\ P (closing a r).

(** A [starmap] is its submission followed by events of the workers. *)
Lemma starmap_tail pool items sched w r w' t :
  starmap func pool items sched w = (r, w', t) ->
  exists ts, t = EvStarmap pool items :: ts /\ Forall P ts.
Proof.
  assert (Hf : forall a w0 r0 w0' t0,
            func a w0 = (r0, w0', t0) -> True ->
            True /\ Forall P t0 /\ P (closing a r0)).
  { intros a w0 r0 w0' t0 Hc _. split; [exact Logic.I|].
    apply (func_P _ _ _ _ _ Hc). }
  intros H. unfold starmap in H.
  unfold bind at 1 in H. unfold emit at 1 in H.
  unfold bind at 1 in H.
  match type of H with context [run_sched func sched ?s w] =>
    destruct (run_sched func sched s w) as [[r1 w1] t1] eqn:E1 end.
  destruct (run_sched_inv _ (fun _ => True) P Hf _ _ _ _ _ _ E1 Logic.I)
    as [_ HP1].
  destruct r1 as [st1|e].
  - unfold bind in H.
    destruct (drain func (fst st1) (snd st1) w1) as [[r2 w2] t2] eqn:E2.
    destruct (drain_inv _ (fun _ => True) P Hf _ _ _ _ _ _ E2 Logic.I)
      as [_ HP2].
    destruct r2 as [[e|]|e]; unfold raise, ret in H; inv H;
      eexists; (split; [reflexivity|]); rewrite ?app_nil_r;
      rewrite ?Forall_app; auto.
  - inv H. eexists. split; [reflexivity | exact HP1].
Qed.

End PoolTail.

Section SubmissionClaim.
Context `{DB : ManageDB}.
Variable G : uploader_module.

Lemma partial_call_calls up kw a w r w' t :
  partial_call up kw a w = (r, w', t) -> closed t = [] /\ called t = [a].
Proof.
  unfold partial_call, py_call. intros H.
  destruct (bind_args (params up) a kw) as [env|e].
  - destruct (body up env w) as [rb wb]. inv H. auto.
  - inv H. auto.
Qed.

Lemma partial_call_worker_events up client a w r w' t :
  partial_call up [("client", client)] a w = (r, w', t) ->
  Forall (worker_event client) t /\ worker_event client (closing a r).
Proof.
  unfold partial_call, py_call. intros H.
  destruct (bind_args (params up) a [("client", client)]) as [env|e].
  - destruct (body up env w) as [rb wb]. inv H.
    split; [repeat constructor | destruct r; exact Logic.I].
  - inv H. split; [repeat constructor | exact Logic.I].
Qed.

(** C3. A dispatch cycle snapshots exactly the rows whose status is
    ["processed"] and, the snapshot not being empty, makes one submission
    and no other: the store path and share list of each snapshot row, in
    order, to the module's pool, whose size is the CPU count it was
    constructed with. All that follows the submission in the cycle are the
    workers' calls with the client as keyword, and these calls are on
    tasks of the snapshot, each at most once and all of them unless an
    upload raised; a row in another status is never dispatched. The pool
    hands out every submitted task in one of its chunks. *)
Theorem begin_uploads_submits_processed made cpu_count t0 sched client up
    w rows r w' t :
  load_uploader made cpu_count = (Ok G, t0) ->
  db_reachable w = true ->
  tasks w = Some rows ->
  indices_match ->
  (forall r, In r rows ->
     store_path_col < length r /\ share_list_col < length r) ->
  filter is_processed rows <> [] ->
  begin_uploads G sched client up w = (r, w', t) ->
  let snapshot := filter is_processed rows in
  let items :=
    map (fun r => [col store_path_col r; col share_list_col r]) snapshot in
  (forall r, In r snapshot <->
             In r rows /\ col status_col r = VStr "processed") /\
  processes (POOL G) = cpu_count /\
  (exists ts untried,
     t = EvExecute CMD_GET_FOLDERS [] :: EvStarmap (POOL G) items :: ts /\
     Forall (worker_event client) ts /\
     Permutation (called ts ++ untried) items /\
     (raised ts = [] -> untried = [])) /\
  submitted t = [(POOL G, items)] /\
  concat (get_tasks (length items)
            (chunksize (length items) (processes (POOL G))) items) = items.
Proof.
  intros Hload Hr Ht [Hs Hh] Hwf Hne H snapshot items.
  assert (Hidx : indexable rows).
  { intros x Hx. rewrite Hs, Hh. apply Hwf, Hx. }
  assert (Hitems : snapshot_items rows = items).
  { unfold snapshot_items, items, snapshot. rewrite Hs, Hh. reflexivity. }
  assert (Hne' : snapshot_items rows <> []).
  { rewrite Hitems. unfold items, snapshot. intros E.
    apply map_eq_nil in E. contradiction. }
  destruct (begin_uploads_dispatch G _ _ _ _ _ _ _ _ Hr Ht Hidx H)
    as [(Hi & _)|(_ & ts0 & -> & Hst)]; [contradiction|].
  rewrite Hitems in Hst.
  destruct (starmap_tail _ (worker_event client)
              (partial_call_worker_events up client) _ _ _ _ _ _ _ Hst)
    as (ts & -> & Hw).
  assert (Hne'' : items <> []) by (rewrite <- Hitems; exact Hne').
  destruct (starmap_accounted _ (partial_call_quiet up _) _ _ _ _ _ _ _
              Hne'' Hst) as (_ & d & P & R & _).
  pose proof (starmap_called _ (partial_call_calls up _) _ _ _ _ _ _ _ Hst)
    as Hc.
  split; [|split; [|split; [|split]]].
  - intros x. unfold snapshot. rewrite filter_In, is_processed_iff. tauto.
  - unfold load_uploader, ThreadPool_new in Hload.
    destruct (cpu_count <? 1)%nat; [discriminate|].
    injection Hload as HG _. rewrite <- HG. reflexivity.
  - exists ts, d. split; [reflexivity|]. split; [exact Hw|].
    simpl in Hc, P, R. rewrite Hc. auto.
  - simpl. rewrite (worker_events_submit_nothing client ts Hw). reflexivity.
  - apply concat_get_tasks; [|lia].
    apply chunksize_pos. destruct items; [congruence | simpl; lia].
Qed.

End SubmissionClaim.

Lemma begin_uploads_submits_processed_witness :
  processes (POOL Example.G) = 4 /\
  (exists ts untried,
     @begin_uploads Example.db Example.G [] Example.client
       Example.upload_client_last Example.world
     = (Ok tt, Example.world,
        EvExecute CMD_GET_FOLDERS []
        :: EvStarmap (POOL Example.G) [[VStr "/rec/a"; VStr "x@y"]] :: ts) /\
     Forall (worker_event Example.client) ts /\
     Permutation (called ts ++ untried) [[VStr "/rec/a"; VStr "x@y"]]) /\
  submitted
    (snd (@begin_uploads Example.db Example.G [] Example.client
            Example.upload_client_last Example.world))
  = [(POOL Example.G, [[VStr "/rec/a"; VStr "x@y"]])].
Proof.
  assert (Hwf : forall r, In r [Example.row_a; Example.row_b] ->
            @store_path_col Example.db < length r /\
            @share_list_col Example.db < length r).
  { intros r [<-|[<-|[]]]; simpl; lia. }
  assert (Hne : filter (@is_processed Example.db)
                  [Example.row_a; Example.row_b] <> []).
  { simpl. discriminate. }
  destruct (@begin_uploads_submits_processed Example.db Example.G 0 4
              [EvPoolCreate (mkPool 0 4)] [] Example.client
              Example.upload_client_last Example.world
              [Example.row_a; Example.row_b] (Ok tt) Example.world _
              eq_refl eq_refl eq_refl (conj eq_refl eq_refl) Hwf Hne eq_refl)
    as (_ & Hp & (ts & untried & Et & Hw & P & _) & Hs & _).
  split; [exact Hp|]. split; [|exact Hs].
  exists ts, untried. split; [|split; [exact Hw | exact P]].
  exact (f_equal (fun x : trace => (Ok tt, Example.world, x)) Et).
Defined.
